(** * OpenSource-Compass: the text-range editor, the repository-reference
      parser, the context aggregator and the section planner

    A shallow embedding of

    - [applyFormat] and [getStructureSettings] of
      [frontend/js/pr-generator.js], and
    - [parseGitHubUrl], the aggregation step of [validateIssue] and
      [buildSectionsList] of [backend/controllers/issueController.js],

    followed by the properties of these functions.

    JavaScript strings are sequences of code units and are modelled as lists
    of characters; every index and every length below counts list elements,
    as [String.prototype.length] counts code units.  Numbers that denote
    positions are integers ([Z]).  Exceptions are explicit ([exn]). *)

From Stdlib Require Import List ZArith Lia Ascii String Bool.
From Stdlib Require Import DecimalString.
Import ListNotations.

Set Warnings "-register-all".

Local Open Scope Z_scope.
Local Open Scope list_scope.

(** ** JavaScript strings *)

Module JS.

Definition jsstring := list ascii.

(** A string literal of the source. *)
Definition lit (s : string) : jsstring := list_ascii_of_string s.

(** The line break ['\n']. *)
Definition nl : ascii := "010"%char.

(** [s.length] *)
Definition len (s : jsstring) : Z := Z.of_nat (List.length s).

Fixpoint streq (a b : jsstring) : bool :=
  match a, b with
  | [], [] => true
  | x :: a', y :: b' => Ascii.eqb x y && streq a' b'
  | _, _ => false
  end.

(** [s.substring(a, b)]: both arguments are clamped to [0, s.length] and
    swapped when the first exceeds the second. *)
Definition substring (s : jsstring) (a b : Z) : jsstring :=
  let finalStart := Z.min (Z.max a 0) (len s) in
  let finalEnd := Z.min (Z.max b 0) (len s) in
  let from := Z.min finalStart finalEnd in
  let to := Z.max finalStart finalEnd in
  firstn (Z.to_nat (to - from)) (skipn (Z.to_nat from) s).

(** [s.substring(a)]: the end defaults to [s.length]. *)
Definition substringFrom (s : jsstring) (a : Z) : jsstring :=
  substring s a (len s).

(** [s[i] === c]; an index outside the string reads [undefined], which is
    not equal to any character. *)
Definition charIs (s : jsstring) (i : Z) (c : ascii) : bool :=
  if i <? 0 then false
  else match nth_error s (Z.to_nat i) with
       | Some x => Ascii.eqb x c
       | None => false
       end.

(** The descending search of [String.prototype.lastIndexOf] for a
    one-character needle: the greatest index [i <= k] holding [c], or -1. *)
Fixpoint lastIndexDown (s : jsstring) (c : ascii) (k : nat) : Z :=
  if charIs s (Z.of_nat k) c then Z.of_nat k
  else match k with
       | O => -1
       | S k' => lastIndexDown s c k'
       end.

(** [s.lastIndexOf(c, pos)]: the search starts at [pos] clamped between 0
    and [s.length - 1]; when the string is empty nothing is searched. *)
Definition lastIndexOf (s : jsstring) (c : ascii) (pos : Z) : Z :=
  let start := Z.min (Z.max pos 0) (len s - 1) in
  if start <? 0 then -1 else lastIndexDown s c (Z.to_nat start).

(** [s.startsWith(p)] *)
Fixpoint startsWith (s p : jsstring) {struct p} : bool :=
  match p with
  | [] => true
  | c :: p' =>
      match s with
      | x :: s' => Ascii.eqb x c && startsWith s' p'
      | [] => false
      end
  end.

(** [s.endsWith(p)] *)
Definition endsWith (s p : jsstring) : bool :=
  startsWith (rev s) (rev p).

(** [s.replace(/^p/, r)] for a literal [p]: the pattern is anchored at the
    start of the input. *)
Definition replaceAtStart (s p r : jsstring) : jsstring :=
  if startsWith s p then r ++ skipn (List.length p) s else s.

(** [s.replace(/p$/, r)] for a literal [p]: without the [m] flag [$] only
    matches at the end of the input. *)
Definition replaceAtEnd (s p r : jsstring) : jsstring :=
  if endsWith s p then firstn (List.length s - List.length p) s ++ r else s.

(** [s.replace(/c/g, r)] for a single character [c]. *)
Definition replaceAll (s : jsstring) (c : ascii) (r : jsstring) : jsstring :=
  flat_map (fun x => if Ascii.eqb x c then r else [x]) s.

(** [s.split(c)] for a one-character separator: never empty; the empty
    string splits into one empty piece. *)
Fixpoint split (s : jsstring) (c : ascii) : list jsstring :=
  match s with
  | [] => [[]]
  | x :: s' =>
      if Ascii.eqb x c then [] :: split s' c
      else match split s' c with
           | piece :: rest => (x :: piece) :: rest
           | [] => [[x]]
           end
  end.

(** [pieces.join(sep)] on an array of strings. *)
Fixpoint join (pieces : list jsstring) (sep : jsstring) : jsstring :=
  match pieces with
  | [] => []
  | [p] => p
  | p :: rest => p ++ sep ++ join rest sep
  end.

(** [a || b] on strings: the empty string is the only falsy string. *)
Definition orElse (a b : jsstring) : jsstring :=
  match a with
  | [] => b
  | _ => a
  end.

Definition nonEmpty (a : jsstring) : bool :=
  match a with
  | [] => false
  | _ => true
  end.

(** ** JavaScript values and exceptions

    The values that reach the controller come out of JSON documents (request
    bodies, GitHub responses): no functions, no symbols, no getters.  Numbers
    are kept as integers; the code below only tests them for truthiness and
    prints them. *)

Inductive jsval :=
  | JUndefined
  | JNull
  | JBool (b : bool)
  | JNum (n : Z)
  | JStr (s : jsstring)
  | JArr (items : list jsval)
  | JObj (props : list (string * jsval)).

(** The outcome of evaluating an expression: a value, or a thrown one. *)
Inductive exn (A : Type) :=
  | Ok (a : A)
  | Throw (e : jsval).
Arguments Ok {A} a.
Arguments Throw {A} e.

Definition bindE {A B} (r : exn A) (k : A -> exn B) : exn B :=
  match r with
  | Ok a => k a
  | Throw e => Throw e
  end.

Notation "x <- e ;; k" := (bindE e (fun x => k))
  (at level 61, e at next level, right associativity).

(** The [TypeError] object the runtime throws ("cannot read properties of
    undefined", "x.map is not a function", ...); its message is engine
    specific and plays no role. *)
Definition typeError : jsval :=
  JObj [("name"%string, JStr (lit "TypeError"));
        ("message"%string, JStr (lit "TypeError"))].

(** [ToBoolean] *)
Definition truthy (v : jsval) : bool :=
  match v with
  | JUndefined | JNull => false
  | JBool b => b
  | JNum n => negb (n =? 0)
  | JStr s => nonEmpty s
  | JArr _ | JObj _ => true
  end.

(** Own data property [k] of an object: the first binding of [k]. *)
Fixpoint getField (props : list (string * jsval)) (k : string) : option jsval :=
  match props with
  | [] => None
  | (k', v) :: rest => if String.eqb k k' then Some v else getField rest k
  end.

(** [v.k] for the data property names this program reads (none of them is
    defined on a built-in prototype): reading a property of [undefined] or
    [null] throws; a missing property reads [undefined]. *)
Definition getProp (v : jsval) (k : string) : exn jsval :=
  match v with
  | JUndefined | JNull => Throw typeError
  | JObj props =>
      match getField props k with
      | Some x => Ok x
      | None => Ok JUndefined
      end
  | _ => Ok JUndefined
  end.

(** [o[k] = v] on an object: an existing property keeps its place. *)
Fixpoint setField (props : list (string * jsval)) (k : string) (v : jsval)
    : list (string * jsval) :=
  match props with
  | [] => [(k, v)]
  | (k', v') :: rest =>
      if String.eqb k k' then (k, v) :: rest
      else (k', v') :: setField rest k v
  end.

(** The own property keys of an object, each once, in order. *)
Fixpoint ownKeys (props : list (string * jsval)) : list string :=
  match props with
  | [] => []
  | (k, _) :: rest =>
      k :: filter (fun k' => negb (String.eqb k' k)) (ownKeys rest)
  end.

Definition indexKey (i : nat) : string :=
  NilEmpty.string_of_uint (Nat.to_uint i).

Fixpoint indexed {A} (f : A -> jsval) (i : nat) (l : list A)
    : list (string * jsval) :=
  match l with
  | [] => []
  | x :: rest => (indexKey i, f x) :: indexed f (S i) rest
  end.

(** The own enumerable properties a spread [...v] copies: nothing for
    [undefined], [null], booleans and numbers; the indices of a string or of
    an array; the properties of an object. *)
Definition ownProps (v : jsval) : list (string * jsval) :=
  match v with
  | JObj props => props
  | JArr items => indexed (fun x => x) 0 items
  | JStr s => indexed (fun c => JStr [c]) 0 s
  | _ => []
  end.

(** One key of [CopyDataProperties]: read it from the source, write it to
    the target. *)
Definition copyStep (props o : list (string * jsval)) (k : string)
    : list (string * jsval) :=
  match getField props k with
  | Some v => setField o k v
  | None => o
  end.

(** [CopyDataProperties(target, source)], the step of an object spread. *)
Definition copyDataProperties (target : list (string * jsval)) (source : jsval)
    : list (string * jsval) :=
  let props := ownProps source in
  fold_left (copyStep props) (ownKeys props) target.

(** [{ ...a, ...b }] *)
Definition spread2 (a b : jsval) : list (string * jsval) :=
  copyDataProperties (copyDataProperties [] a) b.

Definition decimal (n : Z) : jsstring :=
  lit (NilZero.string_of_int (Z.to_int n)).

(** [items.join(sep)] given the conversion of one element to a string:
    [undefined] and [null] elements contribute the empty string. *)
Definition joinWith (str : jsval -> exn jsstring) (sep : jsstring)
    : list jsval -> exn jsstring :=
  let element x :=
    match x with
    | JUndefined | JNull => Ok []
    | _ => str x
    end in
  fix go (items : list jsval) : exn jsstring :=
    match items with
    | [] => Ok []
    | x :: rest =>
        a <- element x ;;
        match rest with
        | [] => Ok a
        | _ => b <- go rest ;; Ok (a ++ sep ++ b)
        end
    end.

(** [ToString].  An array prints its elements joined by commas.  An object
    prints as [[object Object]] through [Object.prototype.toString], unless
    an own property named [toString] shadows that method: the property of a
    JSON value is not callable, the inherited [valueOf] returns the object
    itself, and the conversion throws. *)
Fixpoint toString (v : jsval) : exn jsstring :=
  match v with
  | JUndefined => Ok (lit "undefined")
  | JNull => Ok (lit "null")
  | JBool true => Ok (lit "true")
  | JBool false => Ok (lit "false")
  | JNum n => Ok (decimal n)
  | JStr s => Ok s
  | JArr items => joinWith toString (lit ",") items
  | JObj props =>
      match getField props "toString" with
      | Some _ => Throw typeError
      | None => Ok (lit "[object Object]")
      end
  end.

(** [items.join(sep)] *)
Definition arrayJoin (items : list jsval) (sep : jsstring) : exn jsstring :=
  joinWith toString sep items.

(** [v.map(f)]: only an array has a [map] method. *)
Fixpoint mapE {A B} (f : A -> exn B) (l : list A) : exn (list B) :=
  match l with
  | [] => Ok []
  | x :: rest => y <- f x ;; ys <- mapE f rest ;; Ok (y :: ys)
  end.

Definition arrayMap (f : jsval -> exn jsval) (v : jsval) : exn (list jsval) :=
  match v with
  | JArr items => mapE f items
  | _ => Throw typeError
  end.

(** [v.filter(p)]: only an array has a [filter] method. *)
Fixpoint filterE {A} (p : A -> exn bool) (l : list A) : exn (list A) :=
  match l with
  | [] => Ok []
  | x :: rest =>
      keep <- p x ;;
      ys <- filterE p rest ;;
      Ok (if keep then x :: ys else ys)
  end.

Definition arrayFilter (p : jsval -> exn bool) (v : jsval) : exn (list jsval) :=
  match v with
  | JArr items => filterE p items
  | _ => Throw typeError
  end.

(** [v.split(c)]: only a string has a [split] method. *)
Definition callSplit (v : jsval) (c : ascii) : exn (list jsstring) :=
  match v with
  | JStr s => Ok (split s c)
  | _ => Throw typeError
  end.

(** [v.substring(a, b)]: only a string has a [substring] method. *)
Definition callSubstring (v : jsval) (a b : Z) : exn jsstring :=
  match v with
  | JStr s => Ok (substring s a b)
  | _ => Throw typeError
  end.

(** An evaluation that, when it throws, throws a [TypeError]. *)
Definition onlyTypeError {A} (r : exn A) : Prop :=
  forall e, r = Throw e -> e = typeError.

(** [v === 'literal'] *)
Definition strictEqualsString (v : jsval) (s : jsstring) : bool :=
  match v with
  | JStr x => streq x s
  | _ => false
  end.

End JS.

Import JS.

(** ** The textarea of the editor (pr-generator.js)

    [applyFormat] reads and writes three attributes of an
    [HTMLTextAreaElement].  Their setters are those of the HTML Standard:

    - assigning a [value] that differs from the current one moves the
      cursor to the end of the text and unselects;
    - [selectionStart] and [selectionEnd] are [unsigned long] attributes: the
      assigned number is reduced modulo [2^32], and "set the selection
      range" treats a position beyond the text as the end of the text and
      collapses the range onto its end when the end does not exceed the
      start. *)

Module Editor.

Record Textarea := mkTextarea {
  value : jsstring;
  selectionStart : Z;
  selectionEnd : Z
}.

(** Conversion of a number to the IDL type [unsigned long]. *)
Definition toUnsignedLong (x : Z) : Z := x mod 2 ^ 32.

Definition setSelectionRange (s e : Z) (t : Textarea) : Textarea :=
  let s' := Z.min s (len (value t)) in
  let e' := Z.min e (len (value t)) in
  if e' <=? s' then mkTextarea (value t) e' e'
  else mkTextarea (value t) s' e'.

(** [textarea.value = v] *)
Definition set_value (v : jsstring) (t : Textarea) : Textarea :=
  if streq v (value t) then t
  else mkTextarea v (len v) (len v).

(** [textarea.selectionStart = x] *)
Definition set_selectionStart (x : Z) (t : Textarea) : Textarea :=
  let x' := toUnsignedLong x in
  let e := selectionEnd t in
  let e := if e <? x' then x' else e in
  setSelectionRange x' e t.

(** [textarea.selectionEnd = x] *)
Definition set_selectionEnd (x : Z) (t : Textarea) : Textarea :=
  setSelectionRange (selectionStart t) (toUnsignedLong x) t.

(** [textarea.dispatchEvent(new Event('input'))]: the one listener of the
    page, [updateWordCount], reads [value] and writes the counter element;
    the textarea is left as it is. *)
Definition dispatchInputEvent (t : Textarea) : Textarea := t.

(** The [case] labels of the [switch] in [applyFormat]. *)
Inductive Action :=
  | bold | italic | strikethrough | heading | code | link
  | ul | checklist | quote.

(** The label an action string selects; any other string takes the
    [default] branch. *)
Definition actionOfString (a : string) : option Action :=
  if String.eqb a "bold" then Some bold
  else if String.eqb a "italic" then Some italic
  else if String.eqb a "strikethrough" then Some strikethrough
  else if String.eqb a "heading" then Some heading
  else if String.eqb a "code" then Some code
  else if String.eqb a "link" then Some link
  else if String.eqb a "ul" then Some ul
  else if String.eqb a "checklist" then Some checklist
  else if String.eqb a "quote" then Some quote
  else None.

(** The four locals the non-heading cases of the [switch] assign. *)
Record Pieces := mkPieces {
  before : jsstring;
  after : jsstring;
  insert : jsstring;
  cursorOffset : Z
}.

(** [bold], [italic], [strikethrough], [code]:
    [before = after = marker; insert = selected || placeholder;
     cursorOffset = selected ? 0 : before.length]. *)
Definition wrapPieces (marker placeholder selected : jsstring) : Pieces :=
  let before := marker in
  let after := marker in
  mkPieces before after (orElse selected placeholder)
           (if nonEmpty selected then 0 else len before).

(** [ul], [checklist], [quote]:
    [insert = (selected || placeholder).split('\n').map(line => prefix + line).join('\n');
     before = start > 0 && text[start - 1] !== '\n' ? '\n' : ''; after = '']. *)
Definition linePieces (prefix placeholder selected text : jsstring)
    (start : Z) : Pieces :=
  let insert :=
    join (map (fun line => prefix ++ line)
              (split (orElse selected placeholder) nl)) [nl] in
  let before :=
    if (0 <? start) && negb (charIs text (start - 1) nl) then [nl] else [] in
  mkPieces before [] insert 0.

Definition linkPieces (selected : jsstring) : Pieces :=
  if nonEmpty selected
  then mkPieces (lit "[") (lit "](url)") selected 0
  else mkPieces [] [] (lit "[link text](url)") 1.

(** The [heading] case, which returns from inside the [switch]. *)
Definition applyHeading (textarea : Textarea) : Textarea :=
  let start := selectionStart textarea in
  let end_ := selectionEnd textarea in
  let text := value textarea in
  let lineStart := lastIndexOf text nl (start - 1) + 1 in
  let lineText := substring text lineStart end_ in
  if startsWith lineText (lit "### ") then
    let t := set_value (substring text 0 lineStart
                        ++ replaceAtStart lineText (lit "### ") []
                        ++ substringFrom text end_) textarea in
    let t := set_selectionEnd (start - 4) t in
    let t := set_selectionStart (start - 4) t in
    dispatchInputEvent t
  else if startsWith lineText (lit "## ") then
    let t := set_value (substring text 0 lineStart
                        ++ replaceAtStart lineText (lit "## ") (lit "### ")
                        ++ substringFrom text end_) textarea in
    let t := set_selectionEnd (start + 1) t in
    let t := set_selectionStart (start + 1) t in
    dispatchInputEvent t
  else if startsWith lineText (lit "# ") then
    let t := set_value (substring text 0 lineStart
                        ++ replaceAtStart lineText (lit "# ") (lit "## ")
                        ++ substringFrom text end_) textarea in
    let t := set_selectionEnd (start + 1) t in
    let t := set_selectionStart (start + 1) t in
    dispatchInputEvent t
  else
    let t := set_value (substring text 0 lineStart
                        ++ lit "## " ++ lineText
                        ++ substringFrom text end_) textarea in
    let t := set_selectionEnd (start + 3) t in
    let t := set_selectionStart (start + 3) t in
    dispatchInputEvent t.

(** The code after the [switch]: replace the selection and set the cursor. *)
Definition applyPieces (p : Pieces) (textarea : Textarea) : Textarea :=
  let start := selectionStart textarea in
  let end_ := selectionEnd textarea in
  let text := value textarea in
  let selected := substring text start end_ in
  let replacement := before p ++ insert p ++ after p in
  let t := set_value (substring text 0 start ++ replacement
                      ++ substringFrom text end_) textarea in
  let t :=
    if nonEmpty selected then
      let t := set_selectionStart (start + len (before p)) t in
      set_selectionEnd (start + len (before p) + len (insert p)) t
    else
      let pos := start + len (before p) + cursorOffset p in
      let t := set_selectionStart pos t in
      set_selectionEnd (pos + len (insert p) - cursorOffset p) t in
  dispatchInputEvent t.

Definition applyFormat (textarea : Textarea) (action : Action) : Textarea :=
  let start := selectionStart textarea in
  let end_ := selectionEnd textarea in
  let text := value textarea in
  let selected := substring text start end_ in
  match action with
  | bold => applyPieces (wrapPieces (lit "**") (lit "bold text") selected) textarea
  | italic => applyPieces (wrapPieces (lit "*") (lit "italic text") selected) textarea
  | strikethrough =>
      applyPieces (wrapPieces (lit "~~") (lit "strikethrough") selected) textarea
  | heading => applyHeading textarea
  | code => applyPieces (wrapPieces (lit "`") (lit "code") selected) textarea
  | link => applyPieces (linkPieces selected) textarea
  | ul => applyPieces (linePieces (lit "- ") (lit "list item") selected text start) textarea
  | checklist =>
      applyPieces (linePieces (lit "- [ ] ") (lit "task item") selected text start) textarea
  | quote => applyPieces (linePieces (lit "> ") (lit "quote") selected text start) textarea
  end.

(** [applyFormat(textarea, action)] for an arbitrary action string: the
    [default] branch returns without touching the textarea. *)
Definition applyFormatString (textarea : Textarea) (action : string) : Textarea :=
  match actionOfString action with
  | Some a => applyFormat textarea a
  | None => textarea
  end.

(** The invariant of an edit buffer. *)
Definition wellFormed (t : Textarea) : Prop :=
  0 <= selectionStart t /\ selectionStart t <= selectionEnd t
  /\ selectionEnd t <= len (value t).

Fixpoint applyTimes (n : nat) (a : Action) (t : Textarea) : Textarea :=
  match n with
  | O => t
  | S n' => applyTimes n' a (applyFormat t a)
  end.

(** The buffer [pre ++ line ++ post] with the cursor [k] characters into
    [line]. *)
Definition cursorInLine (pre line post : jsstring) (k : Z) : Textarea :=
  mkTextarea (pre ++ line ++ post) (len pre + k) (len pre + k).

(** The buffer [pre ++ line ++ post] with the selection from [k] to [e]
    characters behind [pre]; the selection may end behind the line. *)
Definition selectionInLine (pre line post : jsstring) (k e : Z) : Textarea :=
  mkTextarea (pre ++ line ++ post) (len pre + k) (len pre + e).

(** [pre] is empty or ends with a line break: what follows starts a line. *)
Definition atLineStart (pre : jsstring) : bool :=
  match rev pre with
  | [] => true
  | c :: _ => Ascii.eqb c nl
  end.

Definition noLineBreak (s : jsstring) : bool :=
  forallb (fun c => negb (Ascii.eqb c nl)) s.

(** The heading level [applyFormat] reads off the start of a line, tested
    in the order of the [if] chain: 3, 2, 1, or 0 for no heading. *)
Definition headingLevel (line : jsstring) : nat :=
  if startsWith line (lit "### ") then 3
  else if startsWith line (lit "## ") then 2
  else if startsWith line (lit "# ") then 1
  else 0.

End Editor.

Import Editor.

(** ** The structure toggles (pr-generator.js) *)

Module Toggles.

(** [getStructureSettings()]: [checked id] is the state of the checkbox
    with that id, [None] when the page has no such element
    ([document.getElementById(id)?.checked ?? true]). *)
Definition getStructureSettings (checked : string -> option bool) : jsval :=
  let read id :=
    match checked id with
    | Some b => JBool b
    | None => JBool true
    end in
  JObj [("includeSummary"%string, read "toggleSummary"%string);
        ("includeChecklist"%string, read "toggleChecklist"%string);
        ("includeBreakingChanges"%string, read "toggleBreaking"%string);
        ("includeScreenshots"%string, read "toggleScreenshots"%string);
        ("includeLinkedIssues"%string, read "toggleLinkedIssues"%string)].

End Toggles.

(** ** The issue and pull-request controllers (issueController.js) *)

Module Controller.

Record RepoRef := mkRepoRef {
  owner : jsstring;
  repo : jsstring
}.

(** The attributes of a [URL] object. *)
Record URLRecord := mkURL {
  protocol : jsstring;
  hostname : jsstring;
  port : jsstring;
  pathname : jsstring;
  search : jsstring;
  hash : jsstring
}.

(** [Boolean] as the predicate of [filter] on an array of strings. *)
Definition Boolean (s : jsstring) : bool := nonEmpty s.

Section ParseGitHubUrl.

(** [new URL(url)], the parser of the URL Standard, supplied by the
    platform: it returns a URL object or throws a [TypeError]. *)
Variable newURL : jsstring -> exn URLRecord.

(** The [try] block: [Some r] when the [return] inside the [if] is taken,
    [None] when control leaves the block at its end. *)
Definition parseGitHubUrl_try (url : jsstring) : exn (option RepoRef) :=
  urlObj <- newURL url ;;
  let pathname := replaceAtEnd (pathname urlObj) (lit ".git") [] in
  let parts := filter Boolean (split pathname "/"%char) in
  if 2 <=? Z.of_nat (List.length parts)
  then Ok (Some (mkRepoRef (nth 0 parts []) (nth 1 parts [])))
  else Ok None.

(** [parseGitHubUrl(url)]; [None] is [null]. *)
Definition parseGitHubUrl (url : jsstring) : exn (option RepoRef) :=
  match parseGitHubUrl_try url with
  | Ok (Some r) => Ok (Some r)
  | Ok None => Ok None        (* the [return null] after the [try] *)
  | Throw e => Ok None        (* the [return null] of the [catch] *)
  end.

End ParseGitHubUrl.

(** The path segments in the words of the specification: strip a trailing
    [.git] from the path, split on [/], discard the empty segments. *)
Definition withoutDotGit (path stripped : jsstring) : Prop :=
  path = stripped ++ lit ".git"
  \/ (stripped = path /\ forall q, path <> q ++ lit ".git").

Definition splitOn (c : ascii) (s : jsstring) (pieces : list jsstring) : Prop :=
  pieces <> [] /\ join pieces [c] = s
  /\ Forall (fun piece => ~ In c piece) pieces.

Definition pathSegments (path : jsstring) (segments : list jsstring) : Prop :=
  exists stripped pieces,
    withoutDotGit path stripped /\ splitOn "/"%char stripped pieces
    /\ segments = filter nonEmpty pieces.

(** The non-empty segments of the path as it stands, [.git] included. *)
Definition rawSegments (path : jsstring) : list jsstring :=
  filter nonEmpty (split path "/"%char).

(** What [new URL] returns on the inputs of the examples below; the other
    inputs are not described and read as failures here. *)
Definition sampleURL (url : jsstring) : exn URLRecord :=
  let https host path := Ok (mkURL (lit "https:") (lit host) [] (lit path) [] []) in
  if streq url (lit "https://github.com/owner/repo.git")
  then https "github.com"%string "/owner/repo.git"%string
  else if streq url (lit "https://github.com/owner/repo/issues/7")
  then https "github.com"%string "/owner/repo/issues/7"%string
  else if streq url (lit "https://gitlab.com/owner/repo/issues/7")
  then https "gitlab.com"%string "/owner/repo/issues/7"%string
  else if streq url (lit "https://github.com/owner/.git")
  then https "github.com"%string "/owner/.git"%string
  else if streq url (lit "https://github.com/owner")
  then https "github.com"%string "/owner"%string
  else Throw typeError.

(** *** The aggregation step of [validateIssue] (lines 31 to 76) *)

(** The outcome of a request, as [Promise.allSettled] reports it. *)
Inductive Settled :=
  | fulfilled (value : jsval)
  | rejected (reason : jsval).

(** [await p] *)
Definition await (p : Settled) : exn jsval :=
  match p with
  | fulfilled v => Ok v
  | rejected e => Throw e
  end.

(** The two [let] variables of the step. *)
Record Locals := mkLocals {
  existingIssuesSummary : jsval;
  projectContext : jsval
}.

(** Statements: they update the locals and complete normally or abruptly. *)
Definition Stmt := Locals -> Locals * exn unit.

Definition seq (a b : Stmt) : Stmt :=
  fun st =>
    match a st with
    | (st', Ok _) => b st'
    | (st', Throw e) => (st', Throw e)
    end.

(** [try { body } catch (e) { handler e }] *)
Definition tryCatch (body : Stmt) (handler : jsval -> Stmt) : Stmt :=
  fun st =>
    match body st with
    | (st', Throw e) => handler e st'
    | done => done
    end.

(** [existingIssuesSummary = e]: nothing is assigned when [e] throws. *)
Definition assign_existingIssuesSummary (e : exn jsval) : Stmt :=
  fun st =>
    match e with
    | Ok v => (mkLocals v (projectContext st), Ok tt)
    | Throw x => (st, Throw x)
    end.

(** [projectContext = e] *)
Definition assign_projectContext (e : exn jsval) : Stmt :=
  fun st =>
    match e with
    | Ok v => (mkLocals (existingIssuesSummary st) v, Ok tt)
    | Throw x => (st, Throw x)
    end.

(** An expression statement whose value is dropped. *)
Definition evaluate {A} (e : exn A) : Stmt :=
  fun st =>
    match e with
    | Ok _ => (st, Ok tt)
    | Throw x => (st, Throw x)
    end.

(** The template literal of one issue. *)
Definition issueLine (issue : jsval) : exn jsval :=
  number <- (v <- getProp issue "number" ;; toString v) ;;
  state <- (v <- getProp issue "state" ;; toString v) ;;
  created <- (v <- getProp issue "created_at" ;;
              pieces <- callSplit v "T"%char ;;
              Ok (nth 0 pieces [])) ;;
  title <- (v <- getProp issue "title" ;; toString v) ;;
  snippet <- (c <- getProp issue "body" ;;
              if truthy c
              then v <- getProp issue "body" ;;
                   s <- callSubstring v 0 200 ;;
                   Ok (replaceAll s nl (lit " "))
              else Ok (lit "No description")) ;;
  Ok (JStr (lit "- #" ++ number ++ lit " [" ++ state ++ lit "] (Created: "
            ++ created ++ lit ") " ++ title ++ [nl] ++ lit "  Snippet: "
            ++ snippet ++ lit "...")).

(** [response.data.map(issue => ...).join("\n")] *)
Definition issuesSummary (response : jsval) : exn jsval :=
  data <- getProp response "data" ;;
  lines <- arrayMap issueLine data ;;
  s <- arrayJoin lines [nl] ;;
  Ok (JStr s).

(** ["Error fetching issues: " + reason.message] *)
Definition issuesError (reason : jsval) : exn jsval :=
  message <- getProp reason "message" ;;
  s <- toString message ;;
  Ok (JStr (lit "Error fetching issues: " ++ s)).

(** [response.data.tree.filter(item => item.type === 'blob').slice(0, 100)
     .map(item => item.path).join("\n")] *)
Definition treeSummary (response : jsval) : exn jsval :=
  data <- getProp response "data" ;;
  tree <- getProp data "tree" ;;
  blobs <- arrayFilter
             (fun item => ty <- getProp item "type" ;;
                          Ok (strictEqualsString ty (lit "blob")))
             tree ;;
  paths <- mapE (fun item => getProp item "path") (firstn 100 blobs) ;;
  s <- arrayJoin paths [nl] ;;
  Ok (JStr s).

Definition apiRepos (r : RepoRef) : jsstring :=
  lit "https://api.github.com/repos/" ++ owner r ++ lit "/" ++ repo r.

Definition issuesUrl (r : RepoRef) : jsstring :=
  apiRepos r ++ lit "/issues?state=all&per_page=100".

Definition treeUrl (r : RepoRef) : jsstring :=
  apiRepos r ++ lit "/git/trees/main?recursive=1".

Definition fallbackTreeUrl (r : RepoRef) : jsstring :=
  apiRepos r ++ lit "/git/trees/master?recursive=1".

Definition couldNotFetchIssues : jsstring :=
  lit "Could not fetch existing issues.".

Definition couldNotFetchFiles : jsstring :=
  lit "Could not fetch project files.".

Definition couldNotFetchTree : jsstring :=
  lit "Could not fetch file tree (repo might be empty or too large/private).".

Section Aggregation.

(** How a GET request to a URL settles; the three requests of the step go
    to three different URLs. *)
Variable axios_get : jsstring -> Settled.

(** [if (issuesRes.status === 'fulfilled') { ... } else { ... }] *)
Definition issuesStep (issuesRes : Settled) : Stmt :=
  match issuesRes with
  | fulfilled value => assign_existingIssuesSummary (issuesSummary value)
  | rejected reason => assign_existingIssuesSummary (issuesError reason)
  end.

(** [if (treeRes.status === 'fulfilled') { ... } else { try { ... } catch
    (e) { ... } }] *)
Definition treeStep (repoDetails : RepoRef) (treeRes : Settled) : Stmt :=
  match treeRes with
  | fulfilled value => assign_projectContext (treeSummary value)
  | rejected _ =>
      tryCatch
        (assign_projectContext
           (fallbackTree <- await (axios_get (fallbackTreeUrl repoDetails)) ;;
            treeSummary fallbackTree))
        (fun e => assign_projectContext (Ok (JStr couldNotFetchTree)))
  end.

(** The body of the outer [try]. *)
Definition aggregate_try (repoDetails : RepoRef) : Stmt :=
  let issuesRes := axios_get (issuesUrl repoDetails) in
  let treeRes := axios_get (treeUrl repoDetails) in
  seq (issuesStep issuesRes) (treeStep repoDetails treeRes).

(** Lines 31 to 76: the two declarations and the outer [try]/[catch], whose
    handler logs [error.message]. *)
Definition aggregate (repoDetails : RepoRef) : Locals * exn unit :=
  let st := mkLocals (JStr couldNotFetchIssues) (JStr couldNotFetchFiles) in
  tryCatch (aggregate_try repoDetails)
           (fun error => evaluate (getProp error "message"))
           st.

End Aggregation.

(** Sample responses: an issue list whose only issue has no [created_at]
    field, the same issue with the field, and a tree with one file and one
    directory; a network that answers the issue request and the first tree
    request with them. *)
Definition sampleRepo : RepoRef := mkRepoRef (lit "owner") (lit "repo").

Definition sampleIssue (withDate : bool) : jsval :=
  JObj ([("number"%string, JNum 7);
         ("state"%string, JStr (lit "open"));
         ("title"%string, JStr (lit "Crash on start"));
         ("body"%string, JNull)]
        ++ if withDate
           then [("created_at"%string, JStr (lit "2024-05-01T09:30:00Z"))]
           else []).

Definition sampleIssuesResponse (withDate : bool) : jsval :=
  JObj [("data"%string, JArr [sampleIssue withDate])].

Definition sampleTreeResponse : jsval :=
  JObj [("data"%string,
         JObj [("tree"%string,
                JArr [JObj [("path"%string, JStr (lit "a.js"));
                            ("type"%string, JStr (lit "blob"))];
                      JObj [("path"%string, JStr (lit "src"));
                            ("type"%string, JStr (lit "tree"))]])])].

Definition sampleNetwork (withDate : bool) (url : jsstring) : Settled :=
  if streq url (issuesUrl sampleRepo)
  then fulfilled (sampleIssuesResponse withDate)
  else if streq url (treeUrl sampleRepo) then fulfilled sampleTreeResponse
  else rejected typeError.

(** *** [buildSectionsList] *)

Definition defaults : jsval :=
  JObj [("includeSummary"%string, JBool true);
        ("includeChecklist"%string, JBool true);
        ("includeBreakingChanges"%string, JBool true);
        ("includeScreenshots"%string, JBool true);
        ("includeLinkedIssues"%string, JBool true)].

Definition dquote : ascii := "034"%char.

Definition entryDescription : jsstring := lit "- ## 📌 Description".

Definition entrySummary : jsstring :=
  lit "- ## 📝 Summary (a concise overview of what this PR achieves)".

Definition entryRelated (inner : jsstring) : jsstring :=
  lit "- ## 🔗 Related Issue (" ++ inner ++ lit ")".

Definition entryTypeOfChange : jsstring :=
  lit "- ## 🛠️ Type of Change (include options like Bug fix, New feature, etc. with [x] for the relevant one)".

Definition entryChecklist : jsstring := lit "- ## ✅ Checklist".

Definition entryBreakingChanges : jsstring :=
  lit "- ## ⚠️ Breaking Changes (list any breaking changes; if none, state "
  ++ [dquote] ++ lit "No breaking changes" ++ [dquote] ++ lit ")".

Definition entryTestingDetails : jsstring := lit "- ## 🧪 Testing Details".

Definition entryScreenshots : jsstring := lit "- ## 📸 Screenshots (if applicable)".

Definition entryAdditionalNotes : jsstring := lit "- ## 💬 Additional Notes".

(** The five toggle keys. *)
Definition isToggle (k : string) : Prop :=
  In k ["includeSummary"; "includeChecklist"; "includeBreakingChanges";
        "includeScreenshots"; "includeLinkedIssues"]%string.

(** [s.k] on the object the spread builds. *)
Definition field (s : list (string * jsval)) (k : string) : jsval :=
  match getField s k with
  | Some v => v
  | None => JUndefined
  end.

(** [sectionEntries.push(e)] *)
Definition push (sectionEntries : list jsstring) (e : jsstring) : list jsstring :=
  sectionEntries ++ [e].

(** The text between the parentheses of the Related Issue entry. *)
Definition relatedInner (prLink : jsval) : exn jsstring :=
  if truthy prLink
  then s <- toString prLink ;; Ok (lit "Relates to " ++ s)
  else Ok (lit "placeholder like #issue-number").

(** The array [sectionEntries] when the function reaches its [return]. *)
Definition sectionEntries (prLink settings : jsval) : exn (list jsstring) :=
  let s := spread2 defaults settings in
  let entries := [] in
  let entries := push entries entryDescription in
  let entries :=
    if truthy (field s "includeSummary") then push entries entrySummary
    else entries in
  entries <-
    (if truthy (field s "includeLinkedIssues")
     then inner <- relatedInner prLink ;; Ok (push entries (entryRelated inner))
     else Ok entries) ;;
  let entries := push entries entryTypeOfChange in
  let entries :=
    if truthy (field s "includeChecklist") then push entries entryChecklist
    else entries in
  let entries :=
    if truthy (field s "includeBreakingChanges")
    then push entries entryBreakingChanges
    else entries in
  let entries := push entries entryTestingDetails in
  let entries :=
    if truthy (field s "includeScreenshots") then push entries entryScreenshots
    else entries in
  let entries := push entries entryAdditionalNotes in
  Ok entries.

(** The entries as a function of the outcomes of the five tests. *)
Definition entriesFor (summary linked checklist breaking screenshots : bool)
    (inner : jsstring) : list jsstring :=
  [entryDescription]
  ++ (if summary then [entrySummary] else [])
  ++ (if linked then [entryRelated inner] else [])
  ++ [entryTypeOfChange]
  ++ (if checklist then [entryChecklist] else [])
  ++ (if breaking then [entryBreakingChanges] else [])
  ++ [entryTestingDetails]
  ++ (if screenshots then [entryScreenshots] else [])
  ++ [entryAdditionalNotes].

(** Each toggle key with the entry it controls. *)
Definition toggleEntries (inner : jsstring) : list (string * jsstring) :=
  [("includeSummary"%string, entrySummary);
   ("includeLinkedIssues"%string, entryRelated inner);
   ("includeChecklist"%string, entryChecklist);
   ("includeBreakingChanges"%string, entryBreakingChanges);
   ("includeScreenshots"%string, entryScreenshots)].

Definition buildSectionsList (prLink settings : jsval) : exn jsstring :=
  entries <- sectionEntries prLink settings ;;
  Ok (join entries (nl :: lit "    ")).

End Controller.

Import Toggles Controller.

(** ** The rest of the editor page (pr-generator.js) *)

Module Page.

(** The wrap cases of the [switch] with their markers. *)
Definition wrapMarkers : list (Action * jsstring) :=
  [(bold, lit "**"); (italic, lit "*"); (strikethrough, lit "~~");
   (code, lit "`")].

(** The line cases of the [switch] with their prefix and placeholder. *)
Definition lineMarkers : list (Action * (jsstring * jsstring)) :=
  [(ul, (lit "- ", lit "list item"));
   (checklist, (lit "- [ ] ", lit "task item"));
   (quote, (lit "> ", lit "quote"))].

(** [s.includes(p)] *)
Fixpoint includes (s p : jsstring) : bool :=
  startsWith s p
  || match s with
     | [] => false
     | _ :: s' => includes s' p
     end.

Section WhiteSpace.

(** The white space of the platform: the characters [trim] strips and the
    class [\s] matches. *)
Variable isSpace : ascii -> bool.

Fixpoint trimStart (s : jsstring) : jsstring :=
  match s with
  | [] => []
  | c :: s' => if isSpace c then trimStart s' else s
  end.

Definition trimEnd (s : jsstring) : jsstring := rev (trimStart (rev s)).

(** [s.trim()] *)
Definition trim (s : jsstring) : jsstring := trimEnd (trimStart s).

(** [s.split(/\s+/)]: the pieces between the maximal runs of white space;
    [inRun] tells that the previous character was white space.  A string
    that starts or ends with white space has an empty first or last
    piece. *)
Fixpoint splitSpaces (s : jsstring) (inRun : bool) : list jsstring :=
  match s with
  | [] => [[]]
  | c :: s' =>
      if isSpace c then
        if inRun then splitSpaces s' true else [] :: splitSpaces s' true
      else
        match splitSpaces s' false with
        | piece :: rest => (c :: piece) :: rest
        | [] => [[c]]
        end
  end.

(** [text.trim() ? text.trim().split(/\s+/).length : 0] *)
Definition countWords (text : jsstring) : nat :=
  if nonEmpty (trim text)
  then List.length (splitSpaces (trim text) false)
  else 0%nat.

(** The text [updateWordCount] writes into the counter element. *)
Definition wordCountText (text : jsstring) : jsstring :=
  let words := Z.of_nat (countWords text) in
  let chars := len text in
  decimal words ++ lit " word" ++ (if words =? 1 then [] else lit "s")
  ++ lit " Â· "
  ++ decimal chars ++ lit " char" ++ (if chars =? 1 then [] else lit "s").

(** The number of places where a word begins: a character that is not
    white space, at the start of the text or after white space. *)
Fixpoint wordStarts (s : jsstring) (afterSpace : bool) : nat :=
  match s with
  | [] => 0%nat
  | c :: s' =>
      if isSpace c then wordStarts s' true
      else ((if afterSpace then 1 else 0) + wordStarts s' false)%nat
  end.

(** Whether the last character is white space; [dflt] for the empty
    string. *)
Fixpoint lastIsSpace (s : jsstring) (dflt : bool) : bool :=
  match s with
  | [] => dflt
  | c :: s' => lastIsSpace s' (isSpace c)
  end.

End WhiteSpace.

(** White space among the ASCII characters: tab, line feed, vertical tab,
    form feed, carriage return, space. *)
Definition asciiSpace (c : ascii) : bool :=
  let n := nat_of_ascii c in
  ((9 <=? n) && (n <=? 13) || (n =? 32))%nat.

(** The ids [updateBadge] and [getStructureSettings] look up. *)
Definition toggleIds : list string :=
  ["toggleSummary"; "toggleChecklist"; "toggleBreaking"; "toggleScreenshots";
   "toggleLinkedIssues"]%string.

(** [toggleIds.filter(id => { el = getElementById(id); return el &&
    el.checked }).length] *)
Definition activeCount (checked : string -> option bool) : nat :=
  List.length
    (filter (fun id => match checked id with
                       | Some true => true
                       | _ => false
                       end)
            toggleIds).

(** The [textContent] of the badge. *)
Definition badgeText (checked : string -> option bool) : jsstring :=
  decimal (Z.of_nat (activeCount checked)) ++ lit " / "
  ++ decimal (Z.of_nat (List.length toggleIds)) ++ lit " active".

End Page.

(** ** The answer of the model (issueController.js, lines 127 and 128) *)

Module Response.

(** [s.replace(/p/g, '')] for a literal, non-empty [p]: after a match the
    scan resumes behind it; [skip] counts the characters of the current
    match still to drop. *)
Fixpoint removeAllFrom (p s : jsstring) (skip : nat) : jsstring :=
  match s with
  | [] => []
  | c :: s' =>
      match skip with
      | S k => removeAllFrom p s' k
      | O =>
          if startsWith s p then removeAllFrom p s' (Nat.pred (List.length p))
          else c :: removeAllFrom p s' 0
      end
  end.

Definition removeAll (s p : jsstring) : jsstring := removeAllFrom p s 0.

Definition fence : jsstring := lit "```".

(** [responseText.replace(/```json/g, '').replace(/```/g, '').trim()] *)
Definition cleanedResponse (isSpace : ascii -> bool) (responseText : jsstring)
    : jsstring :=
  Page.trim isSpace (removeAll (removeAll responseText (lit "```json")) fence).

(** The number of backticks at the start of a string. *)
Fixpoint leadingTicks (s : jsstring) : nat :=
  match s with
  | c :: s' => if Ascii.eqb c "`"%char then S (leadingTicks s') else 0%nat
  | [] => 0%nat
  end.

(** [sampleURL] with the web address of the sample repository added. *)
Definition sampleURLs (url : jsstring) : exn URLRecord :=
  if streq url (lit "https://github.com/owner/repo")
  then Ok (mkURL (lit "https:") (lit "github.com") [] (lit "/owner/repo") [] [])
  else sampleURL url.

(** A tree entry read as a pair: [item.path] is the string [fst e] and
    [item.type] is [snd e]. *)
Definition isTreeEntry (item : jsval) (e : jsstring * jsval) : Prop :=
  getProp item "path" = Ok (JStr (fst e)) /\ getProp item "type" = Ok (snd e).

Definition isBlob (e : jsstring * jsval) : bool :=
  strictEqualsString (snd e) (lit "blob").

(** A network on which the issue request succeeds and both tree requests
    fail. *)
Definition issuesOnlyNetwork (url : jsstring) : Settled :=
  if streq url (issuesUrl sampleRepo)
  then fulfilled (sampleIssuesResponse true)
  else rejected typeError.

End Response.

Import Page Response.

(** * Properties *)

(** ** Strings *)

Lemma len_nonneg (s : jsstring) : 0 <= len s.
Proof. unfold len. lia. Qed.

Lemma len_app (a b : jsstring) : len (a ++ b) = len a + len b.
Proof. unfold len. rewrite length_app. lia. Qed.

Lemma len_cons (c : ascii) (s : jsstring) : len (c :: s) = 1 + len s.
Proof. unfold len. simpl List.length. lia. Qed.

Lemma len_nil : len [] = 0.
Proof. reflexivity. Qed.

Lemma streq_eq (a b : jsstring) : streq a b = true -> a = b.
Proof.
  revert b. induction a as [|x a IH]; intros [|y b]; simpl; try discriminate.
  - reflexivity.
  - intros H. apply andb_true_iff in H as [Hxy Hab].
    apply Ascii.eqb_eq in Hxy. subst y. f_equal. now apply IH.
Qed.

Lemma streq_refl (a : jsstring) : streq a a = true.
Proof.
  induction a as [|x a IH]; simpl; [reflexivity|].
  now rewrite Ascii.eqb_refl, IH.
Qed.

(** Within bounds, [substring] is the slice between the two positions. *)
Lemma substring_slice (s : jsstring) (a b : Z) :
  0 <= a -> a <= b -> b <= len s ->
  substring s a b = firstn (Z.to_nat (b - a)) (skipn (Z.to_nat a) s).
Proof.
  intros Ha Hab Hb. unfold substring.
  rewrite (Z.max_l a 0), (Z.max_l b 0) by lia.
  rewrite (Z.min_l a (len s)), (Z.min_l b (len s)) by lia.
  rewrite (Z.min_l a b), (Z.max_r a b) by lia. reflexivity.
Qed.

Lemma substring_prefix (s : jsstring) (b : Z) :
  0 <= b -> b <= len s -> substring s 0 b = firstn (Z.to_nat b) s.
Proof.
  intros. rewrite substring_slice by lia. simpl. now rewrite Z.sub_0_r.
Qed.

Lemma substringFrom_suffix (s : jsstring) (a : Z) :
  0 <= a -> a <= len s -> substringFrom s a = skipn (Z.to_nat a) s.
Proof.
  intros. unfold substringFrom. rewrite substring_slice by lia.
  apply firstn_all2. rewrite length_skipn. unfold len in *. lia.
Qed.

Lemma len_substring (s : jsstring) (a b : Z) :
  0 <= a -> a <= b -> b <= len s -> len (substring s a b) = b - a.
Proof.
  intros. rewrite substring_slice by lia. unfold len in *.
  rewrite length_firstn, length_skipn. lia.
Qed.

Lemma len_substringFrom (s : jsstring) (a : Z) :
  0 <= a -> a <= len s -> len (substringFrom s a) = len s - a.
Proof.
  intros. rewrite substringFrom_suffix by lia. unfold len in *.
  rewrite length_skipn. lia.
Qed.

Lemma nonEmpty_len (s : jsstring) : nonEmpty s = true <-> 0 < len s.
Proof.
  destruct s; simpl; [rewrite len_nil | rewrite len_cons; pose proof (len_nonneg s)];
    split; intros; try discriminate; try lia; reflexivity.
Qed.

Lemma nonEmpty_false (s : jsstring) : nonEmpty s = false <-> s = [].
Proof. destruct s; simpl; split; intros; congruence. Qed.

(** The pieces of [split] joined by the separator give the string back, and
    no piece contains the separator: [split] is the splitting. *)
Lemma split_not_nil (s : jsstring) (c : ascii) : split s c <> [].
Proof.
  induction s as [|x s IH]; simpl; [discriminate|].
  destruct (Ascii.eqb x c); [discriminate|].
  destruct (split s c); [contradiction | discriminate].
Qed.

Lemma join_cons (p : jsstring) (rest : list jsstring) (sep : jsstring) :
  rest <> [] -> join (p :: rest) sep = p ++ sep ++ join rest sep.
Proof. destruct rest; [contradiction | reflexivity]. Qed.

Lemma split_join (s : jsstring) (c : ascii) : join (split s c) [c] = s.
Proof.
  induction s as [|x s IH]; simpl; [reflexivity|].
  destruct (Ascii.eqb x c) eqn:E.
  - apply Ascii.eqb_eq in E. subst x.
    rewrite join_cons by apply split_not_nil. simpl. now rewrite IH.
  - pose proof (split_not_nil s c) as Hne.
    destruct (split s c) as [|piece rest]; [contradiction|].
    destruct rest as [|q rest].
    + simpl in *. now rewrite IH.
    + rewrite join_cons in IH by discriminate.
      rewrite join_cons by discriminate. rewrite <- IH. reflexivity.
Qed.

Lemma split_no_separator (s : jsstring) (c : ascii) :
  Forall (fun piece => ~ In c piece) (split s c).
Proof.
  induction s as [|x s IH]; simpl.
  - constructor; [intros [] | constructor].
  - destruct (Ascii.eqb x c) eqn:E.
    + constructor; [intros [] | exact IH].
    + destruct (split s c) as [|piece rest].
      * constructor; [|constructor]. intros [H|[]]. subst x.
        now rewrite Ascii.eqb_refl in E.
      * inversion IH; subst. constructor; [|assumption].
        intros [H|H]; [|contradiction]. subst x.
        now rewrite Ascii.eqb_refl in E.
Qed.

(** Any splitting with these two properties is the one [split] computes. *)
Lemma split_unique (c : ascii) (pieces : list jsstring) :
  pieces <> [] ->
  Forall (fun piece => ~ In c piece) pieces ->
  split (join pieces [c]) c = pieces.
Proof.
  induction pieces as [|p rest IH]; intros Hne Hall; [contradiction|].
  inversion Hall as [|? ? Hp Hrest]; subst.
  destruct rest as [|q rest].
  - simpl. clear IH Hall Hne Hrest.
    induction p as [|x p IHp]; simpl; [reflexivity|].
    destruct (Ascii.eqb x c) eqn:E.
    + apply Ascii.eqb_eq in E. subst x. exfalso. apply Hp. now left.
    + rewrite IHp; [reflexivity|]. intros H. apply Hp. now right.
  - rewrite join_cons by discriminate.
    specialize (IH ltac:(discriminate) Hrest).
    clear Hall Hne.
    induction p as [|x p IHp]; simpl.
    + rewrite Ascii.eqb_refl. simpl in IH. now rewrite IH.
    + destruct (Ascii.eqb x c) eqn:E.
      * apply Ascii.eqb_eq in E. subst x. exfalso. apply Hp. now left.
      * simpl in IHp. rewrite IHp; [reflexivity|].
        intros H. apply Hp. now right.
Qed.

Lemma startsWith_app (p s : jsstring) : startsWith (p ++ s) p = true.
Proof.
  induction p as [|c p IH]; simpl; [reflexivity|].
  now rewrite Ascii.eqb_refl, IH.
Qed.

Lemma startsWith_inv (s p : jsstring) :
  startsWith s p = true -> s = p ++ skipn (List.length p) s.
Proof.
  revert s. induction p as [|c p IH]; intros s H; simpl in *; [reflexivity|].
  destruct s as [|x s]; [discriminate|].
  apply andb_true_iff in H as [Hx Hs]. apply Ascii.eqb_eq in Hx. subst x.
  simpl. f_equal. now apply IH.
Qed.

Lemma startsWith_firstn (s p : jsstring) (n : nat) :
  startsWith (firstn n s) p = true -> startsWith s p = true.
Proof.
  revert s n. induction p as [|c p IH]; intros s n H; simpl in *; [reflexivity|].
  destruct n, s as [|x s]; simpl in *; try discriminate.
  apply andb_true_iff in H as [Hx Hs]. rewrite Hx. simpl. now apply (IH s n).
Qed.

(** [replace(/p$/, r)] removes exactly a final [p]. *)
Lemma replaceAtEnd_suffix (s p : jsstring) :
  replaceAtEnd (s ++ p) p [] = s.
Proof.
  unfold replaceAtEnd, endsWith. rewrite rev_app_distr, startsWith_app.
  rewrite app_nil_r, length_app, Nat.add_sub.
  rewrite firstn_app, Nat.sub_diag, firstn_all. simpl. now rewrite app_nil_r.
Qed.

Lemma replaceAtEnd_other (s p : jsstring) :
  (forall q, s <> q ++ p) -> replaceAtEnd s p [] = s.
Proof.
  intros H. unfold replaceAtEnd, endsWith.
  destruct (startsWith (rev s) (rev p)) eqn:E; [|reflexivity].
  exfalso. apply startsWith_inv in E.
  apply (H (rev (skipn (List.length (rev p)) (rev s)))).
  rewrite <- (rev_involutive p) at 2. rewrite <- rev_app_distr, <- E.
  now rewrite rev_involutive.
Qed.

(** ** The textarea *)

Lemma toUnsignedLong_nonneg (x : Z) : 0 <= toUnsignedLong x.
Proof. unfold toUnsignedLong. apply Z.mod_pos_bound. lia. Qed.

Lemma toUnsignedLong_small (x : Z) :
  0 <= x -> x < 2 ^ 32 -> toUnsignedLong x = x.
Proof. intros. unfold toUnsignedLong. apply Z.mod_small. lia. Qed.

Lemma value_set_value (v : jsstring) (t : Textarea) :
  value (set_value v t) = v.
Proof.
  unfold set_value. destruct (streq v (value t)) eqn:E; [|reflexivity].
  symmetry. now apply streq_eq.
Qed.

Lemma value_setSelectionRange (s e : Z) (t : Textarea) :
  value (setSelectionRange s e t) = value t.
Proof. unfold setSelectionRange. now destruct (_ <=? _). Qed.

Lemma value_set_selectionStart (x : Z) (t : Textarea) :
  value (set_selectionStart x t) = value t.
Proof. apply value_setSelectionRange. Qed.

Lemma value_set_selectionEnd (x : Z) (t : Textarea) :
  value (set_selectionEnd x t) = value t.
Proof. apply value_setSelectionRange. Qed.

(** Every setter keeps the selection inside the text. *)
Lemma setSelectionRange_wellFormed (s e : Z) (t : Textarea) :
  0 <= s -> 0 <= e -> wellFormed (setSelectionRange s e t).
Proof.
  intros Hs He. pose proof (len_nonneg (value t)).
  unfold wellFormed, setSelectionRange.
  destruct (_ <=? _) eqn:E; simpl; [|apply Z.leb_gt in E]; lia.
Qed.

Lemma set_value_wellFormed (v : jsstring) (t : Textarea) :
  wellFormed t -> wellFormed (set_value v t).
Proof.
  intros H. unfold set_value. destruct (streq v (value t)); [assumption|].
  pose proof (len_nonneg v). unfold wellFormed. simpl. lia.
Qed.

Lemma set_selectionStart_wellFormed (x : Z) (t : Textarea) :
  wellFormed t -> wellFormed (set_selectionStart x t).
Proof.
  intros (H0 & H1 & H2). unfold set_selectionStart.
  pose proof (toUnsignedLong_nonneg x).
  apply setSelectionRange_wellFormed; [assumption|].
  destruct (_ <? _); lia.
Qed.

Lemma set_selectionEnd_wellFormed (x : Z) (t : Textarea) :
  wellFormed t -> wellFormed (set_selectionEnd x t).
Proof.
  intros (H0 & H1 & H2). unfold set_selectionEnd.
  apply setSelectionRange_wellFormed; [assumption|].
  apply toUnsignedLong_nonneg.
Qed.

Create HintDb editor.

#[local] Hint Resolve set_value_wellFormed set_selectionStart_wellFormed
  set_selectionEnd_wellFormed : editor.

(** Assigning [selectionStart] and then [selectionEnd] positions that lie in
    the text, in order, selects exactly that range, whatever the selection
    was before. *)
Ltac split_comparisons :=
  repeat match goal with
         | |- context [?a <=? ?b] => destruct (Z.leb_spec a b); simpl in *
         | |- context [?a <? ?b] => destruct (Z.ltb_spec a b); simpl in *
         end.

Lemma set_start_then_end (x y : Z) (t : Textarea) :
  wellFormed t -> 0 <= x -> x <= y -> y <= len (value t) -> y < 2 ^ 32 ->
  set_selectionEnd y (set_selectionStart x t) = mkTextarea (value t) x y.
Proof.
  intros (H0 & H1 & H2) Hx Hxy Hy Hb.
  unfold set_selectionEnd, set_selectionStart, setSelectionRange.
  rewrite !toUnsignedLong_small by lia.
  split_comparisons; f_equal; lia.
Qed.

(** The chained assignment [selectionStart = selectionEnd = x] of a position
    in the text leaves a cursor at [x]. *)
Lemma set_end_then_start (x : Z) (t : Textarea) :
  wellFormed t -> 0 <= x -> x <= len (value t) -> x < 2 ^ 32 ->
  set_selectionStart x (set_selectionEnd x t) = mkTextarea (value t) x x.
Proof.
  intros (H0 & H1 & H2) Hx Hy Hb.
  unfold set_selectionEnd, set_selectionStart, setSelectionRange.
  rewrite !toUnsignedLong_small by lia.
  split_comparisons; f_equal; lia.
Qed.

Lemma applyPieces_wellFormed (p : Pieces) (t : Textarea) :
  wellFormed t -> wellFormed (applyPieces p t).
Proof.
  intros H. unfold applyPieces, dispatchInputEvent.
  destruct (nonEmpty _); auto with editor.
Qed.

Lemma applyHeading_wellFormed (t : Textarea) :
  wellFormed t -> wellFormed (applyHeading t).
Proof.
  intros H. unfold applyHeading, dispatchInputEvent.
  repeat destruct (startsWith _ _); auto with editor.
Qed.

(** What the code after the [switch] leaves in the textarea, when the
    selection is not empty and when it is empty. *)
Lemma applyPieces_selected (p : Pieces) (t : Textarea) :
  wellFormed t -> selectionStart t < selectionEnd t ->
  len (value t) + len (before p) + len (insert p) + len (after p) < 2 ^ 32 ->
  applyPieces p t
  = mkTextarea
      (substring (value t) 0 (selectionStart t)
       ++ (before p ++ insert p ++ after p)
       ++ substringFrom (value t) (selectionEnd t))
      (selectionStart t + len (before p))
      (selectionStart t + len (before p) + len (insert p)).
Proof.
  intros Hwf Hlt Hb. pose proof Hwf as (H0 & H1 & H2).
  unfold applyPieces, dispatchInputEvent.
  assert (Hsel : nonEmpty (substring (value t) (selectionStart t) (selectionEnd t)) = true).
  { apply nonEmpty_len. rewrite len_substring by lia. lia. }
  rewrite Hsel.
  pose proof (len_nonneg (before p)). pose proof (len_nonneg (insert p)).
  pose proof (len_nonneg (after p)).
  rewrite set_start_then_end; rewrite ?value_set_value;
    rewrite ?len_app, ?len_substring, ?len_substringFrom by lia;
    auto with editor; lia.
Qed.

Lemma applyPieces_collapsed (p : Pieces) (t : Textarea) :
  wellFormed t -> selectionStart t = selectionEnd t ->
  0 <= cursorOffset p -> cursorOffset p <= len (insert p) ->
  len (value t) + len (before p) + len (insert p) + len (after p) < 2 ^ 32 ->
  applyPieces p t
  = mkTextarea
      (substring (value t) 0 (selectionStart t)
       ++ (before p ++ insert p ++ after p)
       ++ substringFrom (value t) (selectionEnd t))
      (selectionStart t + len (before p) + cursorOffset p)
      (selectionStart t + len (before p) + len (insert p)).
Proof.
  intros Hwf Heq Hc0 Hc1 Hb. pose proof Hwf as (H0 & H1 & H2).
  unfold applyPieces, dispatchInputEvent.
  assert (Hsel : nonEmpty (substring (value t) (selectionStart t) (selectionEnd t)) = false).
  { destruct (nonEmpty _) eqn:E; [|reflexivity].
    apply nonEmpty_len in E. rewrite len_substring in E by lia. lia. }
  rewrite Hsel.
  pose proof (len_nonneg (before p)). pose proof (len_nonneg (insert p)).
  pose proof (len_nonneg (after p)).
  rewrite set_start_then_end; rewrite ?value_set_value;
    rewrite ?len_app, ?len_substring, ?len_substringFrom by lia;
    auto with editor; try lia.
  f_equal. lia.
Qed.

Lemma selected_empty (t : Textarea) :
  wellFormed t -> selectionStart t = selectionEnd t ->
  substring (value t) (selectionStart t) (selectionEnd t) = [].
Proof.
  intros (H0 & H1 & H2) Heq. apply nonEmpty_false.
  destruct (nonEmpty _) eqn:E; [|reflexivity].
  apply nonEmpty_len in E. rewrite len_substring in E by lia. lia.
Qed.

(** With an empty selection at [p], [link] selects the fifteen characters
    that follow the opening bracket. *)
Lemma link_collapsed (t : Textarea) :
  wellFormed t -> selectionStart t = selectionEnd t ->
  len (value t) + 16 < 2 ^ 32 ->
  applyFormat t link
  = mkTextarea
      (substring (value t) 0 (selectionStart t) ++ lit "[link text](url)"
       ++ substringFrom (value t) (selectionEnd t))
      (selectionStart t + 1) (selectionStart t + 16).
Proof.
  intros Hwf Heq Hb. unfold applyFormat.
  rewrite selected_empty by assumption. simpl linkPieces.
  rewrite applyPieces_collapsed; try assumption.
  - simpl. f_equal; unfold len; simpl; lia.
  - simpl. lia.
  - unfold len. simpl. lia.
  - unfold len in *. simpl. lia.
Qed.

(** With an empty selection at [p], a wrap operation with marker [m] and
    placeholder [ph] selects from [p + 2 |m|] to [p + |m| + |ph|]. *)
Lemma wrap_collapsed (m ph : jsstring) (t : Textarea) :
  wellFormed t -> selectionStart t = selectionEnd t ->
  len m <= len ph ->
  len (value t) + len m + len ph + len m < 2 ^ 32 ->
  applyPieces (wrapPieces m ph []) t
  = mkTextarea
      (substring (value t) 0 (selectionStart t) ++ (m ++ ph ++ m)
       ++ substringFrom (value t) (selectionEnd t))
      (selectionStart t + 2 * len m) (selectionStart t + len m + len ph).
Proof.
  intros Hwf Heq Hm Hb. pose proof (len_nonneg m).
  rewrite applyPieces_collapsed; try assumption.
  cbn [wrapPieces before after insert cursorOffset orElse nonEmpty].
  f_equal; lia.
Qed.

(** ** The start of the current line *)

Lemma charIs_app_r (a b : jsstring) (i : Z) (c : ascii) :
  0 <= i -> charIs (a ++ b) (len a + i) c = charIs b i c.
Proof.
  intros Hi. unfold charIs. pose proof (len_nonneg a).
  destruct (Z.ltb_spec (len a + i) 0); [lia|].
  destruct (Z.ltb_spec i 0); [lia|].
  replace (Z.to_nat (len a + i)) with (List.length a + Z.to_nat i)%nat
    by (unfold len; lia).
  rewrite nth_error_app2 by lia.
  now replace (List.length a + Z.to_nat i - List.length a)%nat with (Z.to_nat i) by lia.
Qed.

Lemma charIs_app_l (a b : jsstring) (i : Z) (c : ascii) :
  i < len a -> charIs (a ++ b) i c = charIs a i c.
Proof.
  intros Hi. unfold charIs. destruct (Z.ltb_spec i 0); [reflexivity|].
  rewrite nth_error_app1 by (unfold len in Hi; lia). reflexivity.
Qed.

Lemma charIs_noLineBreak (s : jsstring) (i : Z) :
  noLineBreak s = true -> charIs s i nl = false.
Proof.
  intros H. unfold charIs. destruct (i <? 0); [reflexivity|].
  destruct (nth_error s (Z.to_nat i)) as [x|] eqn:E; [|reflexivity].
  apply nth_error_In in E. unfold noLineBreak in H.
  rewrite forallb_forall in H. apply H in E. now apply negb_true_iff in E.
Qed.

Lemma atLineStart_cases (pre : jsstring) :
  atLineStart pre = true -> pre = [] \/ exists pre', pre = pre' ++ [nl].
Proof.
  unfold atLineStart. intros H. destruct (rev pre) as [|c r] eqn:E.
  - left. apply (f_equal (@rev ascii)) in E. now rewrite rev_involutive in E.
  - right. exists (rev r). apply Ascii.eqb_eq in H. subst c.
    apply (f_equal (@rev ascii)) in E. now rewrite rev_involutive in E.
Qed.

Lemma lastIndexDown_eq (s : jsstring) (c : ascii) (k : nat) :
  lastIndexDown s c k
  = if charIs s (Z.of_nat k) c then Z.of_nat k
    else match k with
         | O => -1
         | S k' => lastIndexDown s c k'
         end.
Proof. destruct k; reflexivity. Qed.

Lemma lastIndexDown_none (s : jsstring) (c : ascii) (n : nat) :
  (forall i : nat, (i <= n)%nat -> charIs s (Z.of_nat i) c = false) ->
  lastIndexDown s c n = -1.
Proof.
  induction n as [|n IH]; intros H; rewrite lastIndexDown_eq.
  - now rewrite (H 0%nat) by lia.
  - rewrite (H (S n)) by lia. apply IH. intros i Hi. apply H. lia.
Qed.

Lemma lastIndexDown_found (s : jsstring) (c : ascii) (m n : nat) :
  (m <= n)%nat -> charIs s (Z.of_nat m) c = true ->
  (forall i : nat, (m < i <= n)%nat -> charIs s (Z.of_nat i) c = false) ->
  lastIndexDown s c n = Z.of_nat m.
Proof.
  induction n as [|n IH]; intros Hmn Hm Hlater.
  - assert (m = 0%nat) by lia. subst m. rewrite lastIndexDown_eq. now rewrite Hm.
  - destruct (Nat.eq_dec m (S n)) as [->|Hne].
    + rewrite lastIndexDown_eq. now rewrite Hm.
    + rewrite lastIndexDown_eq. rewrite (Hlater (S n)) by lia.
      apply IH; [lia | assumption |]. intros i Hi. apply Hlater. lia.
Qed.

(** In [pre ++ line ++ post], with the cursor [k] characters into the line,
    the search for the preceding line break finds the end of [pre]. *)
Lemma lineStart_found (pre line post : jsstring) (k : Z) :
  atLineStart pre = true -> noLineBreak line = true ->
  0 <= k -> k <= len line ->
  (0 < len pre + k \/ charIs (line ++ post) 0 nl = false) ->
  lastIndexOf (pre ++ line ++ post) nl (len pre + k - 1) + 1 = len pre.
Proof.
  intros Hpre Hline Hk0 Hk1 Hzero.
  pose proof (len_nonneg pre) as Hp0. pose proof (len_nonneg post) as Hq0.
  assert (Hlen : len (pre ++ line ++ post) = len pre + len line + len post)
    by (rewrite !len_app; lia).
  unfold lastIndexOf. rewrite Hlen.
  assert (Hmid : forall i : Z, len pre <= i -> i < len pre + k ->
                 charIs (pre ++ line ++ post) i nl = false).
  { intros i Hi1 Hi2. replace i with (len pre + (i - len pre)) by lia.
    rewrite charIs_app_r by lia. rewrite charIs_app_l by lia.
    now apply charIs_noLineBreak. }
  destruct (Z.eq_dec (len pre + k) 0) as [Hz|Hnz].
  - assert (pre = [])
      by (destruct pre as [|c pre]; [reflexivity|];
          pose proof (len_nonneg pre); rewrite len_cons in Hz; lia).
    subst pre. rewrite len_nil in *. assert (k = 0) by lia. subst k.
    destruct Hzero as [Hzero|Hzero]; [lia|]. simpl app.
    destruct (Z.ltb_spec (Z.min (Z.max (0 + 0 - 1) 0) (0 + len line + len post - 1)) 0);
      [reflexivity|].
    replace (Z.min (Z.max (0 + 0 - 1) 0) (0 + len line + len post - 1)) with 0 by lia.
    simpl. now rewrite Hzero.
  - replace (Z.min (Z.max (len pre + k - 1) 0) (len pre + len line + len post - 1))
      with (len pre + k - 1) by lia.
    destruct (Z.ltb_spec (len pre + k - 1) 0); [lia|].
    destruct (atLineStart_cases pre Hpre) as [->|[pre' ->]].
    + rewrite len_nil in *. rewrite lastIndexDown_none; [reflexivity|].
      intros i Hi. apply Hmid; rewrite ?len_nil; lia.
    + rewrite len_app, len_cons, len_nil in *.
      pose proof (len_nonneg pre').
      rewrite (lastIndexDown_found _ _ (Z.to_nat (len pre'))).
      * lia.
      * lia.
      * rewrite Z2Nat.id by lia. rewrite <- !app_assoc.
        replace (len pre') with (len pre' + 0) at 1 by lia.
        rewrite charIs_app_r by lia. reflexivity.
      * intros i Hi. apply Hmid; rewrite ?len_app, ?len_cons, ?len_nil; lia.
Qed.

(** The three slices the heading case takes of [pre ++ line ++ post]. *)
Lemma slice_before (pre rest : jsstring) :
  substring (pre ++ rest) 0 (len pre) = pre.
Proof.
  pose proof (len_nonneg pre). pose proof (len_nonneg rest).
  rewrite substring_prefix by (rewrite ?len_app; lia).
  unfold len. rewrite Nat2Z.id, firstn_app, Nat.sub_diag, firstn_all.
  simpl. now rewrite app_nil_r.
Qed.

Lemma slice_line (pre line post : jsstring) (k : Z) :
  0 <= k -> k <= len line ->
  substring (pre ++ line ++ post) (len pre) (len pre + k)
  = firstn (Z.to_nat k) line.
Proof.
  intros Hk0 Hk1. pose proof (len_nonneg pre). pose proof (len_nonneg post).
  rewrite substring_slice by (rewrite ?len_app; lia).
  unfold len in *. rewrite Nat2Z.id, skipn_app, Nat.sub_diag, skipn_all.
  simpl. replace (Z.of_nat (List.length pre) + k - Z.of_nat (List.length pre)) with k by lia.
  rewrite firstn_app.
  replace (Z.to_nat k - List.length line)%nat with 0%nat by lia.
  simpl. now rewrite app_nil_r.
Qed.

Lemma slice_after (pre line post : jsstring) (k : Z) :
  0 <= k -> k <= len line ->
  substringFrom (pre ++ line ++ post) (len pre + k)
  = skipn (Z.to_nat k) line ++ post.
Proof.
  intros Hk0 Hk1. pose proof (len_nonneg pre). pose proof (len_nonneg post).
  rewrite substringFrom_suffix by (rewrite ?len_app; lia).
  unfold len in *.
  replace (Z.to_nat (Z.of_nat (List.length pre) + k))
    with (Z.to_nat k + List.length pre)%nat by lia.
  rewrite <- skipn_skipn.
  rewrite (skipn_app (List.length pre)), Nat.sub_diag, skipn_all. simpl.
  rewrite skipn_app.
  replace (Z.to_nat k - List.length line)%nat with 0%nat by lia.
  reflexivity.
Qed.

(** ** The heading case on one line *)

Lemma cursorInLine_wellFormed (pre line post : jsstring) (k : Z) :
  0 <= k -> k <= len line -> wellFormed (cursorInLine pre line post k).
Proof.
  intros. pose proof (len_nonneg pre). pose proof (len_nonneg post).
  unfold wellFormed, cursorInLine. simpl. rewrite !len_app. lia.
Qed.

Lemma set_cursor_after_value (v : jsstring) (x : Z) (t : Textarea) :
  wellFormed t -> 0 <= x -> x <= len v -> x < 2 ^ 32 ->
  set_selectionStart x (set_selectionEnd x (set_value v t)) = mkTextarea v x x.
Proof.
  intros Hwf H0 H1 H2.
  rewrite set_end_then_start; rewrite ?value_set_value; auto with editor.
Qed.

(** The heading case, opened on a buffer of the shape [cursorInLine]: the
    line start is the end of [pre], and the text of the line up to the
    cursor decides the branch. *)
Lemma applyHeading_cursorInLine (pre line post : jsstring) (k : Z) :
  atLineStart pre = true -> noLineBreak line = true ->
  0 <= k -> k <= len line ->
  (0 < len pre + k \/ charIs (line ++ post) 0 nl = false) ->
  let lineText := firstn (Z.to_nat k) line in
  let rest := skipn (Z.to_nat k) line ++ post in
  let t := cursorInLine pre line post k in
  let cursor x v := set_selectionStart x (set_selectionEnd x (set_value v t)) in
  applyHeading t
  = if startsWith lineText (lit "### ") then
      cursor (len pre + k - 4) (pre ++ replaceAtStart lineText (lit "### ") [] ++ rest)
    else if startsWith lineText (lit "## ") then
      cursor (len pre + k + 1)
             (pre ++ replaceAtStart lineText (lit "## ") (lit "### ") ++ rest)
    else if startsWith lineText (lit "# ") then
      cursor (len pre + k + 1)
             (pre ++ replaceAtStart lineText (lit "# ") (lit "## ") ++ rest)
    else
      cursor (len pre + k + 3) (pre ++ lit "## " ++ lineText ++ rest).
Proof.
  intros Hpre Hline Hk0 Hk1 Hzero. cbv zeta.
  unfold applyHeading, dispatchInputEvent, cursorInLine.
  cbn [value selectionStart selectionEnd].
  rewrite lineStart_found by assumption.
  rewrite slice_before, slice_line, slice_after by assumption.
  reflexivity.
Qed.

Lemma firstn_past_prefix (p body : jsstring) (j : Z) :
  0 <= j ->
  firstn (Z.to_nat (len p + j)) (p ++ body) = p ++ firstn (Z.to_nat j) body.
Proof.
  intros Hj. unfold len.
  replace (Z.to_nat (Z.of_nat (List.length p) + j))
    with (List.length p + Z.to_nat j)%nat by lia.
  now rewrite firstn_app_2.
Qed.

Lemma skipn_past_prefix (p body : jsstring) (j : Z) :
  0 <= j ->
  skipn (Z.to_nat (len p + j)) (p ++ body) = skipn (Z.to_nat j) body.
Proof.
  intros Hj. unfold len.
  replace (Z.to_nat (Z.of_nat (List.length p) + j))
    with (Z.to_nat j + List.length p)%nat by lia.
  rewrite <- skipn_skipn, skipn_app, Nat.sub_diag, skipn_all. reflexivity.
Qed.

Lemma replaceAtStart_prefix (p r s : jsstring) :
  replaceAtStart (p ++ s) p r = r ++ s.
Proof.
  unfold replaceAtStart. rewrite startsWith_app, skipn_app, Nat.sub_diag, skipn_all.
  reflexivity.
Qed.

Lemma headingLevel_zero (line : jsstring) :
  headingLevel line = 0%nat ->
  startsWith line (lit "### ") = false
  /\ startsWith line (lit "## ") = false
  /\ startsWith line (lit "# ") = false.
Proof.
  unfold headingLevel. intros H.
  destruct (startsWith line (lit "### ")); [discriminate|].
  destruct (startsWith line (lit "## ")); [discriminate|].
  destruct (startsWith line (lit "# ")); [discriminate|].
  repeat split.
Qed.

Lemma startsWith_firstn_false (s p : jsstring) (n : nat) :
  startsWith s p = false -> startsWith (firstn n s) p = false.
Proof.
  intros H. destruct (startsWith (firstn n s) p) eqn:E; [|reflexivity].
  apply startsWith_firstn in E. congruence.
Qed.

Ltac literal_lengths :=
  repeat match goal with
         | |- context [len (lit ?s)] =>
             let v := eval vm_compute in (len (lit s)) in
             change (len (lit s)) with v
         end.

Section HeadingSteps.

Variables pre body post : jsstring.
Variable j : Z.
Hypothesis Hpre : atLineStart pre = true.
Hypothesis Hbody : noLineBreak body = true.
Hypothesis Hj0 : 0 <= j.
Hypothesis Hj1 : j <= len body.
Hypothesis Hbound : len pre + len body + len post + 4 < 2 ^ 32.

Ltac open_heading p :=
  pose proof (len_nonneg pre); pose proof (len_nonneg post);
  unfold applyFormat;
  rewrite applyHeading_cursorInLine;
    [ | assumption | simpl; assumption | lia
      | rewrite len_app; change (len p) with (Z.of_nat (List.length p));
        simpl List.length; lia
      | left; lia ];
  match goal with
  | |- context [Z.to_nat (?n + j)] => change (n + j) with (len p + j)
  end;
  rewrite firstn_past_prefix, skipn_past_prefix by assumption.

Ltac close_heading :=
  pose proof (len_nonneg (firstn (Z.to_nat j) body));
  pose proof (len_nonneg (skipn (Z.to_nat j) body));
  assert (len (firstn (Z.to_nat j) body) + len (skipn (Z.to_nat j) body) = len body)
    by (rewrite <- len_app; now rewrite firstn_skipn);
  assert (len (firstn (Z.to_nat j) body) = j)
    by (unfold len in *; rewrite length_firstn; lia);
  rewrite set_cursor_after_value;
    [ unfold cursorInLine; f_equal;
      [ rewrite <- ?app_assoc; rewrite ?app_nil_l;
        rewrite (app_assoc (firstn _ _) (skipn _ _)), firstn_skipn; reflexivity
      | literal_lengths; lia
      | literal_lengths; lia ]
    | apply cursorInLine_wellFormed; rewrite ?len_app; literal_lengths; lia
    | literal_lengths; lia
    | rewrite !len_app; rewrite ?len_nil; literal_lengths; lia
    | literal_lengths; lia ].

(** [### ] is stripped and the cursor moves four places back. *)
Lemma heading_from_h3 :
  applyFormat (cursorInLine pre (lit "### " ++ body) post (4 + j)) heading
  = cursorInLine pre body post j.
Proof.
  open_heading (lit "### ").
  rewrite startsWith_app, replaceAtStart_prefix.
  close_heading.
Qed.

(** [## ] becomes [### ] and the cursor moves one place on. *)
Lemma heading_from_h2 :
  applyFormat (cursorInLine pre (lit "## " ++ body) post (3 + j)) heading
  = cursorInLine pre (lit "### " ++ body) post (4 + j).
Proof.
  open_heading (lit "## ").
  change (startsWith (lit "## " ++ firstn (Z.to_nat j) body) (lit "### "))
    with false.
  rewrite startsWith_app, replaceAtStart_prefix.
  close_heading.
Qed.

(** [# ] becomes [## ] and the cursor moves one place on. *)
Lemma heading_from_h1 :
  applyFormat (cursorInLine pre (lit "# " ++ body) post (2 + j)) heading
  = cursorInLine pre (lit "## " ++ body) post (3 + j).
Proof.
  open_heading (lit "# ").
  change (startsWith (lit "# " ++ firstn (Z.to_nat j) body) (lit "### "))
    with false.
  change (startsWith (lit "# " ++ firstn (Z.to_nat j) body) (lit "## "))
    with false.
  rewrite startsWith_app, replaceAtStart_prefix.
  close_heading.
Qed.

(** A line without a heading receives [## ] and the cursor moves three
    places on. *)
Lemma heading_from_none :
  headingLevel body = 0%nat ->
  (0 < len pre + j \/ charIs (body ++ post) 0 nl = false) ->
  applyFormat (cursorInLine pre body post j) heading
  = cursorInLine pre (lit "## " ++ body) post (3 + j).
Proof.
  intros Hlevel Hzero.
  apply headingLevel_zero in Hlevel as (H3 & H2 & H1).
  pose proof (len_nonneg pre); pose proof (len_nonneg post).
  unfold applyFormat.
  rewrite applyHeading_cursorInLine by assumption.
  rewrite !startsWith_firstn_false by assumption.
  close_heading.
Qed.

End HeadingSteps.

(** ** The heading case with a selection *)

(** A line that does not start with a prefix free of line breaks does not
    start with it either when read on past its end. *)
Lemma startsWith_past_line (s p post : jsstring) :
  noLineBreak p = true -> startsWith s p = false ->
  (post = [] \/ exists q, post = nl :: q) ->
  startsWith (s ++ post) p = false.
Proof.
  revert s. induction p as [|c p IH]; intros s Hp Hs Hpost; [discriminate|].
  unfold noLineBreak in Hp. cbn [forallb] in Hp.
  apply andb_true_iff in Hp as [Hc Hp]. apply negb_true_iff in Hc.
  destruct s as [|x s].
  - destruct Hpost as [->|[q ->]]; [reflexivity|]. cbn [app startsWith].
    rewrite Ascii.eqb_sym, Hc. reflexivity.
  - cbn [app startsWith] in *. destruct (Ascii.eqb x c); [|reflexivity].
    cbn [andb] in *. now apply IH.
Qed.

Lemma headingLevel_past_line (body post : jsstring) (n : nat) :
  headingLevel body = 0%nat -> (post = [] \/ exists q, post = nl :: q) ->
  startsWith (firstn n (body ++ post)) (lit "### ") = false
  /\ startsWith (firstn n (body ++ post)) (lit "## ") = false
  /\ startsWith (firstn n (body ++ post)) (lit "# ") = false.
Proof.
  intros Hlevel Hpost. apply headingLevel_zero in Hlevel as (H3 & H2 & H1).
  repeat split; apply startsWith_firstn_false, startsWith_past_line;
    auto.
Qed.

(** The heading case, opened on a buffer whose selection starts [k] and ends
    [e] characters behind a line start: the text from the line start to the
    end of the selection decides the branch. *)
Lemma applyHeading_selection (pre rest : jsstring) (k e : Z) :
  atLineStart pre = true -> 0 <= k -> k <= e -> e <= len rest ->
  noLineBreak (firstn (Z.to_nat k) rest) = true ->
  (0 < len pre + k \/ charIs rest 0 nl = false) ->
  let lineText := firstn (Z.to_nat e) rest in
  let after := skipn (Z.to_nat e) rest in
  let t := mkTextarea (pre ++ rest) (len pre + k) (len pre + e) in
  let cursor x v := set_selectionStart x (set_selectionEnd x (set_value v t)) in
  applyHeading t
  = if startsWith lineText (lit "### ") then
      cursor (len pre + k - 4)
             (pre ++ replaceAtStart lineText (lit "### ") [] ++ after)
    else if startsWith lineText (lit "## ") then
      cursor (len pre + k + 1)
             (pre ++ replaceAtStart lineText (lit "## ") (lit "### ") ++ after)
    else if startsWith lineText (lit "# ") then
      cursor (len pre + k + 1)
             (pre ++ replaceAtStart lineText (lit "# ") (lit "## ") ++ after)
    else
      cursor (len pre + k + 3) (pre ++ lit "## " ++ lineText ++ after).
Proof.
  intros Hpre Hk0 Hke He Hline Hzero. cbv zeta.
  unfold applyHeading, dispatchInputEvent.
  cbn [value selectionStart selectionEnd].
  assert (Hstart : lastIndexOf (pre ++ rest) nl (len pre + k - 1) + 1 = len pre).
  { rewrite <- (firstn_skipn (Z.to_nat k) rest) at 1.
    apply lineStart_found; try assumption.
    - unfold len in *. rewrite length_firstn. lia.
    - now rewrite firstn_skipn. }
  assert (Hslice : substring (pre ++ rest) (len pre) (len pre + e)
                   = firstn (Z.to_nat e) rest).
  { pose proof (slice_line pre rest [] e) as H. rewrite app_nil_r in H.
    apply H; lia. }
  assert (Hafter : substringFrom (pre ++ rest) (len pre + e)
                   = skipn (Z.to_nat e) rest).
  { pose proof (slice_after pre rest [] e) as H. rewrite !app_nil_r in H.
    apply H; lia. }
  rewrite Hstart, slice_before, Hslice, Hafter. reflexivity.
Qed.

Lemma selectionInLine_wellFormed (pre line post : jsstring) (k e : Z) :
  0 <= k -> k <= e -> e <= len line + len post ->
  wellFormed (selectionInLine pre line post k e).
Proof.
  intros. pose proof (len_nonneg pre).
  unfold wellFormed, selectionInLine. simpl. rewrite !len_app. lia.
Qed.

Section HeadingSelection.

Variables pre body post : jsstring.
Variables j e : Z.
Hypothesis Hpre : atLineStart pre = true.
Hypothesis Hbody : noLineBreak body = true.
Hypothesis Hj0 : 0 <= j.
Hypothesis Hj1 : j <= len body.
Hypothesis Hje : j <= e.
Hypothesis He : e <= len body + len post.
Hypothesis Hbound : len pre + len body + len post + 4 < 2 ^ 32.

Lemma line_to_cursor (p : jsstring) :
  noLineBreak p = true ->
  noLineBreak (firstn (Z.to_nat (len p + j)) ((p ++ body) ++ post)) = true.
Proof.
  intros Hp. rewrite <- app_assoc, firstn_past_prefix by assumption.
  unfold noLineBreak in *. rewrite forallb_app, Hp. cbn [andb].
  rewrite firstn_app.
  replace (Z.to_nat j - List.length body)%nat with 0%nat
    by (unfold len in *; lia).
  cbn [firstn]. rewrite app_nil_r.
  rewrite forallb_forall in *. intros x Hx. apply Hbody.
  rewrite <- (firstn_skipn (Z.to_nat j) body). apply in_or_app. now left.
Qed.

Ltac open_selected p :=
  pose proof (len_nonneg pre); pose proof (len_nonneg post);
  unfold applyFormat, selectionInLine;
  rewrite applyHeading_selection;
    [ | assumption | lia | lia
      | rewrite !len_app; change (len p) with (Z.of_nat (List.length p));
        simpl List.length; lia
      | match goal with
        | |- context [Z.to_nat (?n + j)] => change (n + j) with (len p + j)
        end; apply line_to_cursor; reflexivity
      | left; lia ];
  match goal with
  | |- context [Z.to_nat (?n + e)] => change (n + e) with (len p + e)
  end;
  rewrite <- (app_assoc p body post);
  rewrite firstn_past_prefix, skipn_past_prefix by lia.

Ltac close_selected :=
  rewrite <- ?app_assoc; rewrite ?app_nil_l; rewrite firstn_skipn;
  rewrite set_cursor_after_value;
    [ unfold cursorInLine; f_equal;
      first [ rewrite <- ?app_assoc; reflexivity | literal_lengths; lia ]
    | unfold wellFormed; cbn [value selectionStart selectionEnd];
      rewrite !len_app; literal_lengths; lia
    | literal_lengths; lia
    | rewrite !len_app; literal_lengths; lia
    | literal_lengths; lia ].

(** [### ] is stripped and a cursor is left four places before the start of
    the selection. *)
Lemma heading_selected_h3 :
  applyFormat (selectionInLine pre (lit "### " ++ body) post (4 + j) (4 + e))
              heading
  = cursorInLine pre body post j.
Proof.
  open_selected (lit "### ").
  rewrite startsWith_app, replaceAtStart_prefix.
  close_selected.
Qed.

(** [## ] becomes [### ] and a cursor is left one place behind the start of
    the selection. *)
Lemma heading_selected_h2 :
  applyFormat (selectionInLine pre (lit "## " ++ body) post (3 + j) (3 + e))
              heading
  = cursorInLine pre (lit "### " ++ body) post (4 + j).
Proof.
  open_selected (lit "## ").
  change (startsWith (lit "## " ++ firstn (Z.to_nat e) (body ++ post))
                     (lit "### "))
    with false.
  rewrite startsWith_app, replaceAtStart_prefix.
  close_selected.
Qed.

(** [# ] becomes [## ] and a cursor is left one place behind the start of
    the selection. *)
Lemma heading_selected_h1 :
  applyFormat (selectionInLine pre (lit "# " ++ body) post (2 + j) (2 + e))
              heading
  = cursorInLine pre (lit "## " ++ body) post (3 + j).
Proof.
  open_selected (lit "# ").
  change (startsWith (lit "# " ++ firstn (Z.to_nat e) (body ++ post))
                     (lit "### "))
    with false.
  change (startsWith (lit "# " ++ firstn (Z.to_nat e) (body ++ post))
                     (lit "## "))
    with false.
  rewrite startsWith_app, replaceAtStart_prefix.
  close_selected.
Qed.

(** A line without a heading, followed by a line break or by nothing,
    receives [## ] and a cursor is left three places behind the start of the
    selection. *)
Lemma heading_selected_none :
  headingLevel body = 0%nat ->
  (post = [] \/ exists q, post = nl :: q) ->
  (0 < len pre + j \/ charIs (body ++ post) 0 nl = false) ->
  applyFormat (selectionInLine pre body post j e) heading
  = cursorInLine pre (lit "## " ++ body) post (3 + j).
Proof.
  intros Hlevel Hpost Hzero.
  destruct (headingLevel_past_line body post (Z.to_nat e) Hlevel Hpost)
    as (H3 & H2 & H1).
  pose proof (len_nonneg pre); pose proof (len_nonneg post).
  unfold applyFormat, selectionInLine.
  rewrite applyHeading_selection;
    [ | assumption | lia | lia | rewrite len_app; lia | | assumption ].
  - rewrite H3, H2, H1. close_selected.
  - pose proof (line_to_cursor [] eq_refl) as Hline.
    rewrite len_nil in Hline. exact Hline.
Qed.

End HeadingSelection.

(** ** The editor *)

(** With a selection, a wrap operation selects the text it wrapped. *)
Example bold_hello :
  applyFormat (mkTextarea (lit "hello world") 0 5) bold
  = mkTextarea (lit "**hello** world") 2 7.
Proof. vm_compute. reflexivity. Qed.

(** C3.  Every operation of [applyFormat] returns a well-formed buffer when
    given one: [0 <= selectionStart <= selectionEnd <= length(text)]. *)
Theorem applyFormat_wellFormed (t : Textarea) (a : Action) :
  wellFormed t -> wellFormed (applyFormat t a).
Proof.
  intros H. destruct a; unfold applyFormat;
    (apply applyPieces_wellFormed || apply applyHeading_wellFormed); exact H.
Qed.

Lemma applyFormat_wellFormed_witness :
  wellFormed (mkTextarea (lit "### abc") 0 7)
  /\ wellFormed (applyFormat (mkTextarea (lit "### abc") 0 7) heading).
Proof.
  assert (H : wellFormed (mkTextarea (lit "### abc") 0 7))
    by (unfold wellFormed; simpl; unfold len; simpl; lia).
  split; [exact H | exact (applyFormat_wellFormed _ heading H)].
Defined.

(** Where the bound is owed to the setter: stripping [### ] with the
    selection starting less than four characters into the text assigns
    [start - 4 < 0], which the [unsigned long] attribute turns into a large
    number and the selection range into the end of the text. *)
Example heading_h3_cursor_at_end :
  toUnsignedLong (0 - 4) = 4294967292
  /\ applyFormat (mkTextarea (lit "### abc") 0 7) heading
     = mkTextarea (lit "abc") 3 3.
Proof. split; vm_compute; reflexivity. Qed.

(** For the other operations the assigned positions lie in the new text as
    they are: with a selection, the inserted text is selected. *)
Lemma bold_selected (t : Textarea) :
  wellFormed t -> selectionStart t < selectionEnd t ->
  2 * len (value t) + 4 < 2 ^ 32 ->
  applyFormat t bold
  = mkTextarea
      (substring (value t) 0 (selectionStart t) ++ lit "**"
       ++ substring (value t) (selectionStart t) (selectionEnd t) ++ lit "**"
       ++ substringFrom (value t) (selectionEnd t))
      (selectionStart t + 2) (selectionEnd t + 2).
Proof.
  intros Hwf Hlt Hb. pose proof Hwf as (H0 & H1 & H2).
  unfold applyFormat.
  assert (Hlen : len (substring (value t) (selectionStart t) (selectionEnd t))
                 = selectionEnd t - selectionStart t)
    by (apply len_substring; lia).
  destruct (substring (value t) (selectionStart t) (selectionEnd t))
    as [|c sel] eqn:E; [rewrite len_nil in Hlen; lia|].
  rewrite applyPieces_selected; try assumption.
  - cbn [wrapPieces before after insert cursorOffset orElse nonEmpty].
    rewrite <- !app_assoc. f_equal; literal_lengths; lia.
  - cbn [wrapPieces before after insert cursorOffset orElse nonEmpty].
    literal_lengths. lia.
Qed.

(** C1.  On the empty buffer with the cursor at 0, [link] inserts
    [[link text](url)] and leaves the selection (1, 16): it starts after the
    opening bracket and runs to the end of the inserted text, it is not the
    cursor (1, 1). *)
Theorem link_on_empty_buffer :
  applyFormat (mkTextarea [] 0 0) link
  = mkTextarea (lit "[link text](url)") 1 16
  /\ applyFormat (mkTextarea [] 0 0) link
     <> mkTextarea (lit "[link text](url)") 1 1.
Proof. split; vm_compute; [reflexivity | discriminate]. Qed.

(** C4.  On the empty buffer with the cursor at 0, each wrap operation
    inserts marker, placeholder, marker, and leaves a selection that starts
    two marker lengths in and ends with the placeholder: the first
    characters of the placeholder, as many as the marker is long, are not
    selected. *)
Theorem wrap_on_empty_buffer :
  applyFormat (mkTextarea [] 0 0) bold = mkTextarea (lit "**bold text**") 4 11
  /\ applyFormat (mkTextarea [] 0 0) italic
     = mkTextarea (lit "*italic text*") 2 12
  /\ applyFormat (mkTextarea [] 0 0) strikethrough
     = mkTextarea (lit "~~strikethrough~~") 4 15
  /\ applyFormat (mkTextarea [] 0 0) code = mkTextarea (lit "`code`") 2 5.
Proof. repeat split; vm_compute; reflexivity. Qed.

(** The same at every cursor position [p]: the selection is
    [(p + 2 |marker|, p + |marker| + |placeholder|)], where the claim has
    [(p + |marker|, p + |marker| + |placeholder|)]. *)
Lemma wrap_empty_selection (t : Textarea) :
  wellFormed t -> selectionStart t = selectionEnd t ->
  len (value t) + 32 < 2 ^ 32 ->
  let p := selectionStart t in
  let inserted m ph :=
    substring (value t) 0 p ++ (m ++ ph ++ m) ++ substringFrom (value t) p in
  applyFormat t bold
  = mkTextarea (inserted (lit "**") (lit "bold text")) (p + 4) (p + 11)
  /\ applyFormat t italic
     = mkTextarea (inserted (lit "*") (lit "italic text")) (p + 2) (p + 12)
  /\ applyFormat t strikethrough
     = mkTextarea (inserted (lit "~~") (lit "strikethrough")) (p + 4) (p + 15)
  /\ applyFormat t code
     = mkTextarea (inserted (lit "`") (lit "code")) (p + 2) (p + 5).
Proof.
  intros Hwf Heq Hb. cbv zeta. unfold applyFormat.
  rewrite selected_empty by assumption.
  repeat split; rewrite wrap_collapsed; try assumption;
    try (literal_lengths; lia);
    rewrite <- Heq; f_equal; literal_lengths; lia.
Qed.

(** C5, as stated, fails.  Four applications of [heading] to the line [abc]
    leave [## abc], whose prefix state is not the original one.  The single
    steps fail as well: on [### # x] stripping the prefix leaves a line that
    still has one; with the cursor before the prefix of [## x] a second
    prefix is inserted; and with the cursor at position 0 of a text that
    begins with a line break the prefix goes behind that line break, which
    is doubled.  Nor do three applications restore [## x] when the selection
    starts before the prefix and ends behind it, or a first line [## ] that
    is followed by a line break. *)
Lemma heading_four_times_counterexample :
  value (applyTimes 4 heading (cursorInLine [] (lit "abc") [] 3))
  = lit "## abc"
  /\ headingLevel (value (applyTimes 4 heading (cursorInLine [] (lit "abc") [] 3)))
     <> headingLevel (value (cursorInLine [] (lit "abc") [] 3))
  /\ value (applyFormat (cursorInLine [] (lit "### # x") [] 7) heading)
     = lit "# x"
  /\ value (applyFormat (cursorInLine [] (lit "## x") [] 0) heading)
     = lit "## ## x"
  /\ value (applyFormat (cursorInLine [] [] (nl :: lit "abc") 0) heading)
     = nl :: lit "## " ++ nl :: nl :: lit "abc"
  /\ value (applyTimes 3 heading (selectionInLine [] (lit "## x") [] 0 4))
     = lit "### ### x"
  /\ value (applyTimes 3 heading (cursorInLine [] (lit "## ") (nl :: lit "abc") 3))
     = nl :: lit "## " ++ nl :: nl :: lit "abc".
Proof. vm_compute. repeat split; try reflexivity. discriminate. Qed.

(** C5, amended.  Take a line made of a heading prefix (or none) and a text
    [body] that carries no heading prefix of its own, followed by a line
    break or by the end of the text, and a selection that starts in the line
    at or behind the end of the prefix, [j] characters into [body], and ends
    anywhere behind its start, [e] characters behind the prefix; leave out
    the first line of a text when it is empty behind its prefix and followed
    by a line break.  Then [heading] rewrites the prefix as none -> [## ],
    [# ] -> [## ], [## ] -> [### ], [### ] -> none, and leaves a cursor at
    the start of the selection, moved with the text.  The states none, [## ],
    [### ] form a cycle of length three: three applications restore the text
    and leave the cursor where the selection started, four applications have
    the effect of one. *)
Theorem heading_cycle (pre body post : jsstring) (j e : Z) :
  atLineStart pre = true -> noLineBreak body = true ->
  (post = [] \/ exists q, post = nl :: q) ->
  headingLevel body = 0%nat ->
  0 <= j -> j <= len body -> j <= e -> e <= len body + len post ->
  (0 < len pre + j \/ charIs (body ++ post) 0 nl = false) ->
  len pre + len body + len post + 4 < 2 ^ 32 ->
  let selected0 := selectionInLine pre body post j e in
  let selected1 := selectionInLine pre (lit "# " ++ body) post (2 + j) (2 + e) in
  let selected2 := selectionInLine pre (lit "## " ++ body) post (3 + j) (3 + e) in
  let selected3 := selectionInLine pre (lit "### " ++ body) post (4 + j) (4 + e) in
  let none := cursorInLine pre body post j in
  let h2 := cursorInLine pre (lit "## " ++ body) post (3 + j) in
  let h3 := cursorInLine pre (lit "### " ++ body) post (4 + j) in
  (applyFormat selected0 heading = h2 /\ applyFormat selected1 heading = h2
   /\ applyFormat selected2 heading = h3 /\ applyFormat selected3 heading = none)
  /\ (applyTimes 3 heading selected0 = none
      /\ applyTimes 3 heading selected2 = h2
      /\ applyTimes 3 heading selected3 = h3)
  /\ (applyTimes 4 heading selected0 = h2 /\ applyTimes 4 heading selected1 = h2
      /\ applyTimes 4 heading selected2 = h3
      /\ applyTimes 4 heading selected3 = none).
Proof.
  intros Hpre Hbody Hpost Hlevel Hj0 Hj1 Hje He Hzero Hbound. cbv zeta.
  pose proof (heading_from_none pre body post j Hpre Hbody Hj0 Hj1 Hbound Hlevel Hzero) as S0.
  pose proof (heading_from_h2 pre body post j Hpre Hbody Hj0 Hj1 Hbound) as S2.
  pose proof (heading_from_h3 pre body post j Hpre Hbody Hj0 Hj1 Hbound) as S3.
  assert (T0 : applyFormat (selectionInLine pre body post j e) heading
               = cursorInLine pre (lit "## " ++ body) post (3 + j))
    by (apply heading_selected_none; assumption).
  assert (T1 : applyFormat (selectionInLine pre (lit "# " ++ body) post
                              (2 + j) (2 + e)) heading
               = cursorInLine pre (lit "## " ++ body) post (3 + j))
    by (apply heading_selected_h1; assumption).
  assert (T2 : applyFormat (selectionInLine pre (lit "## " ++ body) post
                              (3 + j) (3 + e)) heading
               = cursorInLine pre (lit "### " ++ body) post (4 + j))
    by (apply heading_selected_h2; assumption).
  assert (T3 : applyFormat (selectionInLine pre (lit "### " ++ body) post
                              (4 + j) (4 + e)) heading
               = cursorInLine pre body post j)
    by (apply heading_selected_h3; assumption).
  cbn [applyTimes].
  repeat split;
    rewrite ?T0, ?T1, ?T2, ?T3; repeat (rewrite ?S0, ?S2, ?S3); reflexivity.
Qed.

Lemma heading_cycle_witness :
  applyTimes 3 heading
    (selectionInLine (lit "Intro" ++ [nl]) (lit "Title") (nl :: lit "text") 2 8)
  = cursorInLine (lit "Intro" ++ [nl]) (lit "Title") (nl :: lit "text") 2
  /\ applyTimes 4 heading
       (selectionInLine (lit "Intro" ++ [nl]) (lit "Title") (nl :: lit "text")
          2 8)
     = cursorInLine (lit "Intro" ++ [nl]) (lit "## " ++ lit "Title")
         (nl :: lit "text") (3 + 2).
Proof.
  assert (H : atLineStart (lit "Intro" ++ [nl]) = true
              /\ noLineBreak (lit "Title") = true
              /\ headingLevel (lit "Title") = 0%nat
              /\ 0 <= 2 /\ 2 <= len (lit "Title") /\ 2 <= 8
              /\ 8 <= len (lit "Title") + len (nl :: lit "text")
              /\ (0 < len (lit "Intro" ++ [nl]) + 2
                  \/ charIs (lit "Title" ++ nl :: lit "text") 0 nl = false)
              /\ len (lit "Intro" ++ [nl]) + len (lit "Title")
                 + len (nl :: lit "text") + 4 < 2 ^ 32)
    by (vm_compute; intuition (reflexivity || discriminate)).
  destruct H as (H1 & H2 & H3 & H4 & H5 & H6 & H7 & H8 & H9).
  destruct (heading_cycle (lit "Intro" ++ [nl]) (lit "Title") (nl :: lit "text")
              2 8 H1 H2 (or_intror (ex_intro _ (lit "text") eq_refl))
              H3 H4 H5 H6 H7 H8 H9) as (_ & (C3 & _) & (C4 & _)).
  split; [exact C3 | exact C4].
Defined.

(** ** The repository-reference parser *)

Lemma endsWith_inv (s p : jsstring) :
  endsWith s p = true -> exists q, s = q ++ p.
Proof.
  unfold endsWith. intros H. apply startsWith_inv in H.
  exists (rev (skipn (List.length (rev p)) (rev s))).
  rewrite <- (rev_involutive p) at 2. rewrite <- rev_app_distr, <- H.
  now rewrite rev_involutive.
Qed.

Lemma endsWith_app (q p : jsstring) : endsWith (q ++ p) p = true.
Proof. unfold endsWith. rewrite rev_app_distr. apply startsWith_app. Qed.

(** The code computes the stripped path of the specification ... *)
Lemma replaceAtEnd_withoutDotGit (path : jsstring) :
  withoutDotGit path (replaceAtEnd path (lit ".git") []).
Proof.
  destruct (endsWith path (lit ".git")) eqn:E.
  - apply endsWith_inv in E as [q ->]. left. now rewrite replaceAtEnd_suffix.
  - assert (H : forall q, path <> q ++ lit ".git").
    { intros q ->. now rewrite endsWith_app in E. }
    right. split; [now apply replaceAtEnd_other | exact H].
Qed.

(** ... and there is only one. *)
Lemma withoutDotGit_unique (path a b : jsstring) :
  withoutDotGit path a -> withoutDotGit path b -> a = b.
Proof.
  intros [Ha|[Ha Hna]] [Hb|[Hb Hnb]].
  - rewrite Ha in Hb. now apply app_inv_tail in Hb.
  - exfalso. now apply (Hnb a).
  - exfalso. now apply (Hna b).
  - congruence.
Qed.

Lemma split_splitOn (s : jsstring) (c : ascii) : splitOn c s (split s c).
Proof.
  repeat split;
    [apply split_not_nil | apply split_join | apply split_no_separator].
Qed.

Lemma splitOn_unique (c : ascii) (s : jsstring) (pieces : list jsstring) :
  splitOn c s pieces -> pieces = split s c.
Proof.
  intros (Hne & Hjoin & Hall). rewrite <- Hjoin. symmetry.
  now apply split_unique.
Qed.

(** The [parts] of the code are the path segments of the specification. *)
Lemma pathSegments_parts (path : jsstring) :
  pathSegments path
    (filter Boolean (split (replaceAtEnd path (lit ".git") []) "/"%char)).
Proof.
  exists (replaceAtEnd path (lit ".git") []),
         (split (replaceAtEnd path (lit ".git") []) "/"%char).
  repeat split;
    [apply replaceAtEnd_withoutDotGit | apply split_not_nil | apply split_join
     | apply split_no_separator].
Qed.

Lemma pathSegments_unique (path : jsstring) (a b : list jsstring) :
  pathSegments path a -> pathSegments path b -> a = b.
Proof.
  intros (sa & pa & Ha1 & Ha2 & ->) (sb & pb & Hb1 & Hb2 & ->).
  assert (sa = sb) by (eapply withoutDotGit_unique; eassumption). subst sb.
  apply splitOn_unique in Ha2, Hb2. congruence.
Qed.

Lemma parseGitHubUrl_parsed (newURL : jsstring -> exn URLRecord)
    (url : jsstring) (u : URLRecord) (segments : list jsstring) :
  newURL url = Ok u -> pathSegments (pathname u) segments ->
  parseGitHubUrl newURL url
  = match segments with
    | o :: r :: _ => Ok (Some (mkRepoRef o r))
    | _ => Ok None
    end.
Proof.
  intros Hu Hseg.
  rewrite (pathSegments_unique _ _ _ Hseg (pathSegments_parts (pathname u))).
  unfold parseGitHubUrl, parseGitHubUrl_try. rewrite Hu. simpl bindE.
  destruct (filter Boolean _) as [|o [|r rest]]; try reflexivity.
  assert (H : (2 <=? Z.of_nat (List.length (o :: r :: rest))) = true)
    by (apply Z.leb_le; simpl List.length; lia).
  rewrite H. reflexivity.
Qed.

(** C8.  When the input parses as a URL, and stripping a trailing [.git]
    from the path, splitting on [/] and discarding the empty segments leaves
    at least two segments, [parseGitHubUrl] returns the reference built from
    the first two; when fewer remain, or when the input does not parse, it
    returns [null].  It never throws. *)
Theorem parseGitHubUrl_contract (newURL : jsstring -> exn URLRecord)
    (url : jsstring) :
  (forall u segments,
      newURL url = Ok u -> pathSegments (pathname u) segments ->
      (forall o r rest, segments = o :: r :: rest ->
         parseGitHubUrl newURL url = Ok (Some (mkRepoRef o r)))
      /\ ((List.length segments < 2)%nat ->
          parseGitHubUrl newURL url = Ok None))
  /\ (forall e, newURL url = Throw e -> parseGitHubUrl newURL url = Ok None)
  /\ (exists result, parseGitHubUrl newURL url = Ok result).
Proof.
  split; [|split].
  - intros u segments Hu Hseg.
    rewrite (parseGitHubUrl_parsed newURL url _ _ Hu Hseg). split.
    + now intros o r rest ->.
    + destruct segments as [|o [|r rest]]; simpl; intros; try reflexivity; lia.
  - intros e He. unfold parseGitHubUrl, parseGitHubUrl_try. now rewrite He.
  - unfold parseGitHubUrl. destruct (parseGitHubUrl_try newURL url) as [[r|]|e];
      eauto.
Qed.

Lemma parseGitHubUrl_contract_witness :
  parseGitHubUrl sampleURL (lit "https://github.com/owner/repo.git")
  = Ok (Some (mkRepoRef (lit "owner") (lit "repo")))
  /\ parseGitHubUrl sampleURL (lit "https://github.com/owner") = Ok None
  /\ parseGitHubUrl sampleURL (lit "owner/repo") = Ok None.
Proof.
  split; [|split].
  - destruct (parseGitHubUrl_contract sampleURL
                (lit "https://github.com/owner/repo.git")) as (H & _ & _).
    destruct (H _ _ eq_refl (pathSegments_parts _)) as (H2 & _).
    exact (H2 _ _ _ eq_refl).
  - destruct (parseGitHubUrl_contract sampleURL
                (lit "https://github.com/owner")) as (H & _ & _).
    destruct (H _ _ eq_refl (pathSegments_parts _)) as (_ & H1).
    apply H1. vm_compute. lia.
  - destruct (parseGitHubUrl_contract sampleURL (lit "owner/repo"))
      as (_ & H & _).
    exact (H _ eq_refl).
Defined.

(** C9, as stated, fails: the path [/owner/.git] has the two non-empty
    segments [owner] and [.git], and the function returns [null]. *)
Lemma parseGitHubUrl_dot_git_counterexample :
  (exists u, sampleURL (lit "https://github.com/owner/.git") = Ok u
             /\ rawSegments (pathname u) = [lit "owner"; lit ".git"])
  /\ parseGitHubUrl sampleURL (lit "https://github.com/owner/.git") = Ok None.
Proof.
  split; [eexists; split; [reflexivity|]|]; vm_compute; reflexivity.
Qed.

(** C9, amended.  No host validation: when at least two non-empty segments
    remain after a trailing [.git] is stripped from the path,
    [parseGitHubUrl] returns the reference built from the first two,
    whatever the scheme, host and port of the URL; a URL with the same path
    on any other host gets the same answer. *)
Theorem parseGitHubUrl_ignores_host (newURL : jsstring -> exn URLRecord)
    (url : jsstring) (u : URLRecord) (o r : jsstring) (rest : list jsstring) :
  newURL url = Ok u -> pathSegments (pathname u) (o :: r :: rest) ->
  parseGitHubUrl newURL url = Ok (Some (mkRepoRef o r))
  /\ (forall url' u', newURL url' = Ok u' -> pathname u' = pathname u ->
        parseGitHubUrl newURL url' = Ok (Some (mkRepoRef o r))).
Proof.
  intros Hu Hseg. split.
  - now rewrite (parseGitHubUrl_parsed newURL url _ _ Hu Hseg).
  - intros url' u' Hu' Hpath. rewrite <- Hpath in Hseg.
    now rewrite (parseGitHubUrl_parsed newURL url' _ _ Hu' Hseg).
Qed.

Lemma parseGitHubUrl_ignores_host_witness :
  parseGitHubUrl sampleURL (lit "https://gitlab.com/owner/repo/issues/7")
  = Ok (Some (mkRepoRef (lit "owner") (lit "repo")))
  /\ parseGitHubUrl sampleURL (lit "https://github.com/owner/repo/issues/7")
     = Ok (Some (mkRepoRef (lit "owner") (lit "repo"))).
Proof.
  destruct (parseGitHubUrl_ignores_host sampleURL
              (lit "https://gitlab.com/owner/repo/issues/7") _
              (lit "owner") (lit "repo") [lit "issues"; lit "7"]
              eq_refl (pathSegments_parts _)) as (H1 & H2).
  split; [exact H1|].
  exact (H2 (lit "https://github.com/owner/repo/issues/7") _ eq_refl eq_refl).
Defined.

(** ** Exceptions of the runtime *)

Lemma onlyTypeError_Ok {A} (a : A) : onlyTypeError (Ok a).
Proof. intros e H. discriminate. Qed.

Lemma onlyTypeError_Throw {A} : onlyTypeError (@Throw A typeError).
Proof. intros e H. now inversion H. Qed.

Lemma onlyTypeError_bind {A B} (r : exn A) (k : A -> exn B) :
  onlyTypeError r -> (forall a, onlyTypeError (k a)) ->
  onlyTypeError (bindE r k).
Proof.
  intros Hr Hk. destruct r as [a|e]; simpl.
  - apply Hk.
  - intros e' H. inversion H; subst. now apply Hr.
Qed.

Create HintDb throws.

#[local] Hint Resolve onlyTypeError_Ok onlyTypeError_Throw : throws.

Ltac only_type_error :=
  repeat first
    [ apply onlyTypeError_Ok
    | apply onlyTypeError_Throw
    | apply onlyTypeError_bind; [|intros ?]
    | solve [auto with throws]
    | match goal with
      | |- onlyTypeError (if ?c then _ else _) => destruct c
      | |- onlyTypeError (match ?x with _ => _ end) => destruct x
      end ].

Lemma getProp_onlyTypeError (v : jsval) (k : string) :
  onlyTypeError (getProp v k).
Proof. unfold getProp. only_type_error. Qed.

Lemma getProp_typeError (k : string) : exists v, getProp typeError k = Ok v.
Proof. unfold getProp, typeError. destruct (getField _ k); eauto. Qed.

Lemma joinWith_onlyTypeError (str : jsval -> exn jsstring) (sep : jsstring)
    (items : list jsval) :
  Forall (fun x => onlyTypeError (str x)) items ->
  onlyTypeError (joinWith str sep items).
Proof.
  induction 1 as [|x rest Hx Hrest IH]; simpl; [apply onlyTypeError_Ok|].
  apply onlyTypeError_bind.
  - destruct x; auto using onlyTypeError_Ok.
  - intros a. destruct rest; [apply onlyTypeError_Ok|].
    apply onlyTypeError_bind; [exact IH | intros; apply onlyTypeError_Ok].
Qed.

Lemma toString_onlyTypeError : forall v : jsval, onlyTypeError (toString v).
Proof.
  fix IH 1. intros [ | | [|] | n | s | items | props]; simpl;
    try apply onlyTypeError_Ok.
  - apply joinWith_onlyTypeError.
    induction items as [|x rest IHitems]; constructor; [apply IH | exact IHitems].
  - destruct (getField props "toString");
      [apply onlyTypeError_Throw | apply onlyTypeError_Ok].
Qed.

Lemma arrayJoin_onlyTypeError (items : list jsval) (sep : jsstring) :
  onlyTypeError (arrayJoin items sep).
Proof.
  apply joinWith_onlyTypeError. apply Forall_forall. intros x _.
  apply toString_onlyTypeError.
Qed.

Lemma mapE_onlyTypeError {A B} (f : A -> exn B) (l : list A) :
  (forall x, onlyTypeError (f x)) -> onlyTypeError (mapE f l).
Proof. intros Hf. induction l; simpl; only_type_error. Qed.

Lemma filterE_onlyTypeError {A} (p : A -> exn bool) (l : list A) :
  (forall x, onlyTypeError (p x)) -> onlyTypeError (filterE p l).
Proof. intros Hp. induction l; simpl; only_type_error. Qed.

#[local] Hint Resolve getProp_onlyTypeError toString_onlyTypeError
  arrayJoin_onlyTypeError : throws.

Lemma issueLine_onlyTypeError (issue : jsval) : onlyTypeError (issueLine issue).
Proof. unfold issueLine, callSplit, callSubstring. only_type_error. Qed.

Lemma issuesSummary_onlyTypeError (response : jsval) :
  onlyTypeError (issuesSummary response).
Proof.
  unfold issuesSummary, arrayMap. only_type_error.
  apply mapE_onlyTypeError, issueLine_onlyTypeError.
Qed.

Lemma issuesError_onlyTypeError (reason : jsval) :
  onlyTypeError (issuesError reason).
Proof. unfold issuesError. only_type_error. Qed.

Lemma treeSummary_onlyTypeError (response : jsval) :
  onlyTypeError (treeSummary response).
Proof.
  unfold treeSummary, arrayFilter. only_type_error.
  - apply filterE_onlyTypeError. intros x. only_type_error.
  - apply mapE_onlyTypeError. intros x. only_type_error.
Qed.

(** What the three expressions evaluate to, when they do, is a string. *)
Lemma bindE_Ok {A B} (r : exn A) (k : A -> exn B) (b : B) :
  bindE r k = Ok b -> exists a, r = Ok a /\ k a = Ok b.
Proof. destruct r as [a|e]; simpl; [eauto | discriminate]. Qed.

Lemma issuesSummary_string (response v : jsval) :
  issuesSummary response = Ok v -> exists s, v = JStr s.
Proof.
  unfold issuesSummary. intros H.
  apply bindE_Ok in H as (data & _ & H).
  apply bindE_Ok in H as (lines & _ & H).
  apply bindE_Ok in H as (s & _ & H).
  inversion H. eauto.
Qed.

Lemma issuesError_string (reason v : jsval) :
  issuesError reason = Ok v ->
  exists message, v = JStr (lit "Error fetching issues: " ++ message).
Proof.
  unfold issuesError. intros H.
  apply bindE_Ok in H as (m & _ & H).
  apply bindE_Ok in H as (s & _ & H).
  exists s. now inversion H.
Qed.

Lemma treeSummary_string (response v : jsval) :
  treeSummary response = Ok v -> exists s, v = JStr s.
Proof.
  unfold treeSummary. intros H.
  apply bindE_Ok in H as (data & _ & H).
  apply bindE_Ok in H as (tree & _ & H).
  apply bindE_Ok in H as (blobs & _ & H).
  apply bindE_Ok in H as (paths & _ & H).
  apply bindE_Ok in H as (s & _ & H).
  inversion H. eauto.
Qed.

(** ** The aggregation step *)

Section AggregationFacts.

Variable axios_get : jsstring -> Settled.
Variable repoDetails : RepoRef.

(** The issue side either assigns a string or throws a [TypeError] and
    assigns nothing. *)
Lemma issuesStep_outcome (st : Locals) :
  let res := axios_get (issuesUrl repoDetails) in
  (exists s,
      issuesStep res st = (mkLocals (JStr s) (projectContext st), Ok tt)
      /\ ((exists reason message,
              res = rejected reason
              /\ s = lit "Error fetching issues: " ++ message)
          \/ (exists response,
                 res = fulfilled response
                 /\ issuesSummary response = Ok (JStr s))))
  \/ (issuesStep res st = (st, Throw typeError)
      /\ ((exists response e, res = fulfilled response
                              /\ issuesSummary response = Throw e)
          \/ (exists reason e, res = rejected reason
                               /\ issuesError reason = Throw e))).
Proof.
  cbv zeta. destruct (axios_get (issuesUrl repoDetails)) as [response|reason];
    unfold issuesStep, assign_existingIssuesSummary.
  - destruct (issuesSummary response) as [v|e] eqn:E.
    + destruct (issuesSummary_string _ _ E) as [s ->]. left. exists s.
      split; [reflexivity|]. right. eauto.
    + rewrite (issuesSummary_onlyTypeError _ _ E). right.
      split; [reflexivity|]. left. eauto.
  - destruct (issuesError reason) as [v|e] eqn:E.
    + destruct (issuesError_string _ _ E) as [m ->]. left. eexists.
      split; [reflexivity|]. left. eauto.
    + rewrite (issuesError_onlyTypeError _ _ E). right.
      split; [reflexivity|]. right. eauto.
Qed.

(** The tree side likewise; after a failed first request the inner [catch]
    turns every failure into the placeholder. *)
Lemma treeStep_outcome (st : Locals) :
  let res := axios_get (treeUrl repoDetails) in
  (exists s,
      treeStep axios_get repoDetails res st
      = (mkLocals (existingIssuesSummary st) (JStr s), Ok tt)
      /\ ((exists response,
              res = fulfilled response /\ treeSummary response = Ok (JStr s))
          \/ (exists reason response,
                 res = rejected reason
                 /\ axios_get (fallbackTreeUrl repoDetails) = fulfilled response
                 /\ treeSummary response = Ok (JStr s))
          \/ (exists reason, res = rejected reason /\ s = couldNotFetchTree)))
  \/ (treeStep axios_get repoDetails res st = (st, Throw typeError)
      /\ exists response e, res = fulfilled response
                            /\ treeSummary response = Throw e).
Proof.
  cbv zeta. destruct (axios_get (treeUrl repoDetails)) as [response|reason];
    unfold treeStep, tryCatch, assign_projectContext.
  - destruct (treeSummary response) as [v|e] eqn:E.
    + destruct (treeSummary_string _ _ E) as [s ->]. left. exists s.
      split; [reflexivity|]. left. eauto.
    + rewrite (treeSummary_onlyTypeError _ _ E). right.
      split; [reflexivity|]. eauto.
  - left. destruct (axios_get (fallbackTreeUrl repoDetails)) as [response|e'];
      simpl.
    + destruct (treeSummary response) as [v|e] eqn:E.
      * destruct (treeSummary_string _ _ E) as [s ->]. exists s.
        split; [reflexivity|]. right. left. eauto.
      * exists couldNotFetchTree. split; [reflexivity|]. right. right. eauto.
    + exists couldNotFetchTree. split; [reflexivity|]. right. right. eauto.
Qed.




(** When the issue side throws, the tree side is not run: whatever the tree
    request returned, [projectContext] keeps its initial placeholder. *)
Lemma issue_failure_discards_tree (response e : jsval) :
  axios_get (issuesUrl repoDetails) = fulfilled response ->
  issuesSummary response = Throw e ->
  aggregate axios_get repoDetails
  = (mkLocals (JStr couldNotFetchIssues) (JStr couldNotFetchFiles), Ok tt).
Proof.
  intros Hres Hthrow.
  unfold aggregate, tryCatch, aggregate_try, seq, issuesStep,
    assign_existingIssuesSummary.
  rewrite Hres, Hthrow. rewrite (issuesSummary_onlyTypeError _ _ Hthrow).
  reflexivity.
Qed.

End AggregationFacts.

(** C7.  An issue without [created_at] makes the issue summary throw, and
    the tree summary is lost with it: both requests succeeded, the tree
    lists the file [a.js], and both variables keep their initial
    placeholders.  With the field present the tree summary is [a.js]. *)
Theorem issue_without_created_at_loses_tree :
  issuesSummary (sampleIssuesResponse false) = Throw typeError
  /\ treeSummary sampleTreeResponse = Ok (JStr (lit "a.js"))
  /\ aggregate (sampleNetwork false) sampleRepo
     = (mkLocals (JStr couldNotFetchIssues) (JStr couldNotFetchFiles), Ok tt)
  /\ projectContext (fst (aggregate (sampleNetwork true) sampleRepo))
     = JStr (lit "a.js").
Proof. repeat split; vm_compute; reflexivity. Qed.

(** ** The object spread *)

Lemma getField_setField_same (o : list (string * jsval)) (k : string) (v : jsval) :
  getField (setField o k v) k = Some v.
Proof.
  induction o as [|[k' v'] o IH]; simpl.
  - now rewrite String.eqb_refl.
  - destruct (String.eqb k k') eqn:E; simpl.
    + now rewrite String.eqb_refl.
    + now rewrite E.
Qed.

Lemma getField_setField_other (o : list (string * jsval)) (k k' : string)
    (v : jsval) :
  k <> k' -> getField (setField o k' v) k = getField o k.
Proof.
  intros Hne. induction o as [|[k0 v0] o IH]; simpl.
  - apply String.eqb_neq in Hne. now rewrite Hne.
  - destruct (String.eqb k' k0) eqn:E; simpl.
    + apply String.eqb_eq in E. subst k0.
      apply String.eqb_neq in Hne. now rewrite Hne.
    + destruct (String.eqb k k0); [reflexivity | exact IH].
Qed.

Lemma ownKeys_In (props : list (string * jsval)) (k : string) :
  In k (ownKeys props) <-> getField props k <> None.
Proof.
  induction props as [|[k0 v0] props IH]; simpl.
  - split; [intros [] | congruence].
  - destruct (String.eqb k k0) eqn:E.
    + apply String.eqb_eq in E. subst k0. split; [discriminate | now left].
    + apply String.eqb_neq in E. rewrite <- IH, filter_In. split.
      * intros [H|[H _]]; [congruence | exact H].
      * intros H. right. split; [exact H|].
        apply negb_true_iff. now apply String.eqb_neq.
Qed.

Section CopySteps.

Variable props : list (string * jsval).

Lemma copy_steps_other (keys : list string) (target : list (string * jsval))
    (k : string) :
  ~ In k keys -> getField (fold_left (copyStep props) keys target) k = getField target k.
Proof.
  revert target. induction keys as [|k0 keys IH]; intros target Hnot; simpl.
  - reflexivity.
  - rewrite IH by (intros H; apply Hnot; now right).
    unfold copyStep. destruct (getField props k0); [|reflexivity].
    apply getField_setField_other. intros ->. apply Hnot. now left.
Qed.

Lemma copy_steps_key (keys : list string) (target : list (string * jsval))
    (k : string) (v : jsval) :
  getField props k = Some v -> In k keys ->
  getField (fold_left (copyStep props) keys target) k = Some v.
Proof.
  intros Hv. revert target.
  induction keys as [|k0 keys IH]; intros target Hin; simpl; [contradiction|].
  destruct (in_dec string_dec k keys) as [Hlater|Hlast].
  - now apply IH.
  - destruct Hin as [->|Hin]; [|contradiction].
    rewrite copy_steps_other by assumption.
    unfold copyStep. rewrite Hv. apply getField_setField_same.
Qed.

End CopySteps.

(** Copying the properties of [source] over [target]: a key of [source]
    reads as in [source], even when it is bound to [undefined]; any other
    key reads as in [target]. *)
Lemma getField_copyDataProperties (target : list (string * jsval))
    (source : jsval) (k : string) :
  getField (copyDataProperties target source) k
  = match getField (ownProps source) k with
    | Some v => Some v
    | None => getField target k
    end.
Proof.
  unfold copyDataProperties.
  destruct (getField (ownProps source) k) as [v|] eqn:E.
  - apply copy_steps_key; [exact E|]. apply ownKeys_In. congruence.
  - apply copy_steps_other. intros H. apply ownKeys_In in H. contradiction.
Qed.

(** [s.k] after [s = { ...defaults, ...settings }], for a settings object
    and one of the five toggles: the value in [settings] when the key is
    there, [true] when it is not. *)
Lemma field_spread_toggle (props : list (string * jsval)) (k : string) :
  isToggle k ->
  field (spread2 defaults (JObj props)) k
  = match getField props k with
    | Some v => v
    | None => JBool true
    end.
Proof.
  intros Hk. unfold field, spread2.
  rewrite getField_copyDataProperties. simpl ownProps.
  destruct (getField props k); [reflexivity|].
  unfold isToggle in Hk. simpl in Hk.
  repeat destruct Hk as [<-|Hk]; try reflexivity. contradiction.
Qed.

(** ** The section planner *)

Lemma sectionEntries_entriesFor (prLink settings : jsval) (inner : jsstring) :
  relatedInner prLink = Ok inner ->
  let s := spread2 defaults settings in
  sectionEntries prLink settings
  = Ok (entriesFor (truthy (field s "includeSummary"))
                   (truthy (field s "includeLinkedIssues"))
                   (truthy (field s "includeChecklist"))
                   (truthy (field s "includeBreakingChanges"))
                   (truthy (field s "includeScreenshots")) inner).
Proof.
  intros Hinner. cbv zeta. unfold sectionEntries, entriesFor, push.
  rewrite Hinner.
  destruct (truthy (field _ "includeSummary"));
    destruct (truthy (field _ "includeLinkedIssues"));
    destruct (truthy (field _ "includeChecklist"));
    destruct (truthy (field _ "includeBreakingChanges"));
    destruct (truthy (field _ "includeScreenshots")); reflexivity.
Qed.

Lemma sectionEntries_unlinked (prLink settings : jsval) :
  let s := spread2 defaults settings in
  truthy (field s "includeLinkedIssues") = false ->
  sectionEntries prLink settings
  = Ok (entriesFor (truthy (field s "includeSummary")) false
                   (truthy (field s "includeChecklist"))
                   (truthy (field s "includeBreakingChanges"))
                   (truthy (field s "includeScreenshots")) []).
Proof.
  cbv zeta. intros Hoff. unfold sectionEntries, entriesFor, push.
  rewrite Hoff.
  destruct (truthy (field _ "includeSummary"));
    destruct (truthy (field _ "includeChecklist"));
    destruct (truthy (field _ "includeBreakingChanges"));
    destruct (truthy (field _ "includeScreenshots")); reflexivity.
Qed.

(** The object [getStructureSettings] builds holds the state of each
    checkbox under its key. *)
Lemma field_getStructureSettings (b : bool) (k : string) :
  isToggle k ->
  field (spread2 defaults (Toggles.getStructureSettings (fun _ => Some b))) k
  = JBool b.
Proof.
  intros Hk. unfold Toggles.getStructureSettings.
  rewrite field_spread_toggle by exact Hk.
  unfold isToggle in Hk. simpl in Hk.
  repeat destruct Hk as [<-|Hk]; try reflexivity. contradiction.
Qed.

Ltac toggle_key := unfold isToggle; simpl; tauto.

(** C2, as stated, fails: with every toggle off the list has four entries,
    not five. *)
Lemma all_false_counterexample :
  sectionEntries JUndefined (Toggles.getStructureSettings (fun _ => Some false))
  = Ok [entryDescription; entryTypeOfChange; entryTestingDetails;
        entryAdditionalNotes]
  /\ List.length [entryDescription; entryTypeOfChange; entryTestingDetails;
                  entryAdditionalNotes] <> 5%nat.
Proof. split; [vm_compute; reflexivity | simpl; lia]. Qed.

(** C2, amended.  With every toggle on, the entries are the nine sections
    Description, Summary, Related Issue, Type of Change, Checklist,
    Breaking Changes, Testing Details, Screenshots, Additional Notes, in
    this order; with every toggle off they are the four unconditional
    sections Description, Type of Change, Testing Details, Additional
    Notes, in the same relative order.  The function returns the entries
    joined by a line break and four spaces. *)
Theorem sections_all_on_all_off (prLink : jsval) (inner : jsstring) :
  relatedInner prLink = Ok inner ->
  let allOn := Toggles.getStructureSettings (fun _ => Some true) in
  let allOff := Toggles.getStructureSettings (fun _ => Some false) in
  let nine := [entryDescription; entrySummary; entryRelated inner;
               entryTypeOfChange; entryChecklist; entryBreakingChanges;
               entryTestingDetails; entryScreenshots; entryAdditionalNotes] in
  let four := [entryDescription; entryTypeOfChange; entryTestingDetails;
               entryAdditionalNotes] in
  sectionEntries prLink allOn = Ok nine
  /\ sectionEntries prLink allOff = Ok four
  /\ buildSectionsList prLink allOn = Ok (join nine (nl :: lit "    "))
  /\ buildSectionsList prLink allOff = Ok (join four (nl :: lit "    ")).
Proof.
  intros Hinner. cbv zeta.
  assert (Hon : sectionEntries prLink (Toggles.getStructureSettings (fun _ => Some true))
                = Ok (entriesFor true true true true true inner)).
  { rewrite (sectionEntries_entriesFor _ _ _ Hinner). cbv zeta.
    now rewrite !field_getStructureSettings by toggle_key. }
  assert (Hoff : sectionEntries prLink (Toggles.getStructureSettings (fun _ => Some false))
                 = Ok (entriesFor false false false false false inner)).
  { rewrite (sectionEntries_entriesFor _ _ _ Hinner). cbv zeta.
    now rewrite !field_getStructureSettings by toggle_key. }
  unfold buildSectionsList. rewrite Hon, Hoff. repeat split.
Qed.

Lemma sections_all_on_all_off_witness :
  relatedInner (JStr (lit "#42")) = Ok (lit "Relates to #42")
  /\ sectionEntries (JStr (lit "#42"))
       (Toggles.getStructureSettings (fun _ => Some true))
     = Ok [entryDescription; entrySummary; entryRelated (lit "Relates to #42");
           entryTypeOfChange; entryChecklist; entryBreakingChanges;
           entryTestingDetails; entryScreenshots; entryAdditionalNotes]
  /\ sectionEntries (JStr (lit "#42"))
       (Toggles.getStructureSettings (fun _ => Some false))
     = Ok [entryDescription; entryTypeOfChange; entryTestingDetails;
           entryAdditionalNotes].
Proof.
  assert (H : relatedInner (JStr (lit "#42")) = Ok (lit "Relates to #42"))
    by reflexivity.
  destruct (sections_all_on_all_off (JStr (lit "#42")) _ H) as (H9 & H4 & _).
  split; [exact H | split; [exact H9 | exact H4]].
Defined.

(** An entry is in the list exactly when its test succeeded: the nine
    entries are different strings. *)
Lemma In_entriesFor (summary linked checklist breaking screenshots : bool)
    (inner : jsstring) :
  let entries :=
    entriesFor summary linked checklist breaking screenshots inner in
  (In entrySummary entries <-> summary = true)
  /\ (In (entryRelated inner) entries <-> linked = true)
  /\ (In entryChecklist entries <-> checklist = true)
  /\ (In entryBreakingChanges entries <-> breaking = true)
  /\ (In entryScreenshots entries <-> screenshots = true).
Proof.
  cbv zeta.
  destruct summary, linked, checklist, breaking, screenshots;
    vm_compute; repeat split; intros H; try reflexivity; try discriminate;
    intuition discriminate.
Qed.

Lemma toggle_rule (P : Prop) (bound : option jsval) :
  (P <-> truthy match bound with
                | Some v => v
                | None => JBool true
                end = true) ->
  (bound = Some JUndefined -> ~ P)
  /\ (bound = None -> P)
  /\ (forall v, bound = Some v -> (P <-> truthy v = true)).
Proof.
  intros H. repeat split.
  - intros ->. simpl in H. intros HP. apply H in HP. discriminate.
  - intros ->. now apply H.
  - intros HP. subst bound. now apply H.
  - intros Hv. subst bound. now apply H.
Qed.

(** C10.  In a settings object, a toggle key bound to [undefined] replaces
    the default through the spread and its section is left out; an absent
    key gets the default [true] and its section is included; a key bound to
    any other value includes its section exactly when the value is truthy. *)
Theorem undefined_toggle_overrides_default (prLink : jsval)
    (inner : jsstring) (props : list (string * jsval)) :
  relatedInner prLink = Ok inner ->
  exists entries,
    sectionEntries prLink (JObj props) = Ok entries
    /\ forall key entry,
         In (key, entry) (toggleEntries inner) ->
         (getField props key = Some JUndefined -> ~ In entry entries)
         /\ (getField props key = None -> In entry entries)
         /\ (forall v, getField props key = Some v ->
               (In entry entries <-> truthy v = true)).
Proof.
  intros Hinner. eexists. split.
  - apply (sectionEntries_entriesFor _ _ _ Hinner).
  - cbv zeta. rewrite !field_spread_toggle by toggle_key.
    match goal with
    | |- context [entriesFor ?a ?b ?c ?d ?e inner] =>
        destruct (In_entriesFor a b c d e inner) as (I1 & I2 & I3 & I4 & I5)
    end.
    intros key entry Hin. unfold toggleEntries in Hin. simpl in Hin.
    repeat destruct Hin as [Hin|Hin]; try contradiction;
      inversion Hin; subst key entry; clear Hin; apply toggle_rule;
      assumption.
Qed.

Lemma undefined_toggle_overrides_default_witness :
  sectionEntries JUndefined
    (JObj [("includeSummary"%string, JUndefined)])
  = Ok [entryDescription;
        entryRelated (lit "placeholder like #issue-number");
        entryTypeOfChange; entryChecklist; entryBreakingChanges;
        entryTestingDetails; entryScreenshots; entryAdditionalNotes]
  /\ ~ In entrySummary
         [entryDescription;
          entryRelated (lit "placeholder like #issue-number");
          entryTypeOfChange; entryChecklist; entryBreakingChanges;
          entryTestingDetails; entryScreenshots; entryAdditionalNotes]
  /\ In entryChecklist
       [entryDescription;
        entryRelated (lit "placeholder like #issue-number");
        entryTypeOfChange; entryChecklist; entryBreakingChanges;
        entryTestingDetails; entryScreenshots; entryAdditionalNotes].
Proof.
  destruct (undefined_toggle_overrides_default JUndefined
              (lit "placeholder like #issue-number")
              [("includeSummary"%string, JUndefined)] eq_refl)
    as (entries & Hentries & Htoggles).
  assert (E : entries
              = [entryDescription;
                 entryRelated (lit "placeholder like #issue-number");
                 entryTypeOfChange; entryChecklist; entryBreakingChanges;
                 entryTestingDetails; entryScreenshots; entryAdditionalNotes]).
  { assert (H : Ok entries
                = Ok [entryDescription;
                      entryRelated (lit "placeholder like #issue-number");
                      entryTypeOfChange; entryChecklist; entryBreakingChanges;
                      entryTestingDetails; entryScreenshots;
                      entryAdditionalNotes])
      by (rewrite <- Hentries; reflexivity).
    now inversion H. }
  subst entries. split; [exact Hentries|]. split.
  - apply (Htoggles "includeSummary"%string entrySummary);
      [simpl; now left | reflexivity].
  - apply (Htoggles "includeChecklist"%string entryChecklist);
      [simpl; tauto | reflexivity].
Defined.

(** Two toggles off, the other three absent: the seven remaining sections
    keep their order. *)
Example checklist_and_screenshots_off :
  sectionEntries JUndefined
    (JObj [("includeChecklist"%string, JBool false);
           ("includeScreenshots"%string, JBool false)])
  = Ok [entryDescription; entrySummary;
        entryRelated (lit "placeholder like #issue-number");
        entryTypeOfChange; entryBreakingChanges; entryTestingDetails;
        entryAdditionalNotes].
Proof. vm_compute. reflexivity. Qed.

(** * Further properties *)

(** ** Wrapping a selection *)

Lemma text_three_parts (text : jsstring) (s e : Z) :
  0 <= s -> s <= e -> e <= len text ->
  substring text 0 s ++ substring text s e ++ substringFrom text e = text.
Proof.
  intros Hs Hse He.
  rewrite substring_prefix, substring_slice, substringFrom_suffix by lia.
  replace (Z.to_nat e) with (Z.to_nat (e - s) + Z.to_nat s)%nat by lia.
  rewrite <- skipn_skipn, firstn_skipn. apply firstn_skipn.
Qed.

Lemma substring_middle (a m b : jsstring) :
  substring (a ++ m ++ b) (len a) (len a + len m) = m.
Proof.
  pose proof (len_nonneg m). rewrite slice_line by lia.
  unfold len. rewrite Nat2Z.id. apply firstn_all.
Qed.

Lemma substringFrom_tail (a b : jsstring) :
  substringFrom (a ++ b) (len a) = b.
Proof.
  pose proof (len_nonneg a). pose proof (len_nonneg b).
  rewrite substringFrom_suffix by (rewrite ?len_app; lia).
  unfold len. rewrite Nat2Z.id, skipn_app, Nat.sub_diag, skipn_all.
  reflexivity.
Qed.

Lemma applyPieces_zero_offset (p : Pieces) (t : Textarea) :
  wellFormed t -> cursorOffset p = 0 ->
  len (value t) + len (before p) + len (insert p) + len (after p) < 2 ^ 32 ->
  applyPieces p t
  = mkTextarea
      (substring (value t) 0 (selectionStart t)
       ++ (before p ++ insert p ++ after p)
       ++ substringFrom (value t) (selectionEnd t))
      (selectionStart t + len (before p))
      (selectionStart t + len (before p) + len (insert p)).
Proof.
  intros Hwf Hc Hb. pose proof Hwf as (H0 & H1 & H2).
  destruct (Z.eq_dec (selectionStart t) (selectionEnd t)) as [Heq|Hne].
  - pose proof (len_nonneg (insert p)).
    rewrite applyPieces_collapsed by (assumption || lia).
    f_equal. lia.
  - apply applyPieces_selected; [assumption | lia | assumption].
Qed.

(** A selection wrapped between [b] and [a]: the text, the new selection,
    its content, and the way back. *)
Lemma wrapped_selection (b a : jsstring) (t t' : Textarea) :
  wellFormed t ->
  t' = mkTextarea
         (substring (value t) 0 (selectionStart t)
          ++ (b ++ substring (value t) (selectionStart t) (selectionEnd t) ++ a)
          ++ substringFrom (value t) (selectionEnd t))
         (selectionStart t + len b) (selectionEnd t + len b) ->
  substring (value t') (selectionStart t') (selectionEnd t')
  = substring (value t) (selectionStart t) (selectionEnd t)
  /\ substring (value t') 0 (selectionStart t' - len b)
     ++ substring (value t') (selectionStart t') (selectionEnd t')
     ++ substringFrom (value t') (selectionEnd t' + len a)
     = value t.
Proof.
  intros (H0 & H1 & H2) ->. cbn [value selectionStart selectionEnd].
  set (A := substring (value t) 0 (selectionStart t)).
  set (S := substring (value t) (selectionStart t) (selectionEnd t)).
  set (B := substringFrom (value t) (selectionEnd t)).
  assert (HA : len A = selectionStart t)
    by (unfold A; rewrite len_substring by lia; lia).
  assert (HS : len S = selectionEnd t - selectionStart t)
    by (apply len_substring; lia).
  assert (Hmid : substring (A ++ (b ++ S ++ a) ++ B) (selectionStart t + len b)
                   (selectionEnd t + len b) = S).
  { replace (A ++ (b ++ S ++ a) ++ B) with ((A ++ b) ++ S ++ (a ++ B))
      by (now rewrite <- !app_assoc).
    replace (selectionStart t + len b) with (len (A ++ b))
      by (rewrite len_app; lia).
    replace (selectionEnd t + len b) with (len (A ++ b) + len S)
      by (rewrite len_app; lia).
    apply substring_middle. }
  split; [exact Hmid|]. rewrite Hmid.
  replace (selectionStart t + len b - len b) with (len A) by lia.
  rewrite slice_before.
  replace (A ++ (b ++ S ++ a) ++ B) with ((A ++ b ++ S ++ a) ++ B)
    by (now rewrite <- !app_assoc).
  replace (selectionEnd t + len b + len a) with (len (A ++ b ++ S ++ a))
    by (rewrite !len_app; lia).
  rewrite substringFrom_tail. now apply text_three_parts.
Qed.

Lemma wrapPieces_selected (m ph : jsstring) (t : Textarea) :
  wellFormed t -> selectionStart t < selectionEnd t ->
  2 * len (value t) + 2 * len m < 2 ^ 32 ->
  applyPieces
    (wrapPieces m ph (substring (value t) (selectionStart t) (selectionEnd t))) t
  = mkTextarea
      (substring (value t) 0 (selectionStart t)
       ++ (m ++ substring (value t) (selectionStart t) (selectionEnd t) ++ m)
       ++ substringFrom (value t) (selectionEnd t))
      (selectionStart t + len m) (selectionEnd t + len m).
Proof.
  intros Hwf Hlt Hb. pose proof Hwf as (H0 & H1 & H2).
  assert (Hlen : len (substring (value t) (selectionStart t) (selectionEnd t))
                 = selectionEnd t - selectionStart t)
    by (apply len_substring; lia).
  destruct (substring (value t) (selectionStart t) (selectionEnd t))
    as [|c sel] eqn:E; [rewrite len_nil in Hlen; lia|].
  rewrite applyPieces_selected; try assumption;
    cbn [wrapPieces before after insert cursorOffset orElse nonEmpty].
  - f_equal. lia.
  - lia.
Qed.

(** X1.  With a non-empty selection, each of [bold], [italic],
    [strikethrough] and [code] puts its marker on both sides of the selected
    text, keeps the text around it, and selects the same text again, now
    shifted by the length of the marker. *)
Theorem wrap_keeps_selection (t : Textarea) (a : Action) (m : jsstring) :
  In (a, m) wrapMarkers ->
  wellFormed t -> selectionStart t < selectionEnd t ->
  2 * len (value t) + 4 < 2 ^ 32 ->
  value (applyFormat t a)
  = substring (value t) 0 (selectionStart t)
    ++ (m ++ substring (value t) (selectionStart t) (selectionEnd t) ++ m)
    ++ substringFrom (value t) (selectionEnd t)
  /\ selectionStart (applyFormat t a) = selectionStart t + len m
  /\ selectionEnd (applyFormat t a) = selectionEnd t + len m
  /\ substring (value (applyFormat t a)) (selectionStart (applyFormat t a))
       (selectionEnd (applyFormat t a))
     = substring (value t) (selectionStart t) (selectionEnd t).
Proof.
  intros Hin Hwf Hlt Hb.
  assert (E : applyFormat t a
              = mkTextarea
                  (substring (value t) 0 (selectionStart t)
                   ++ (m ++ substring (value t) (selectionStart t) (selectionEnd t) ++ m)
                   ++ substringFrom (value t) (selectionEnd t))
                  (selectionStart t + len m) (selectionEnd t + len m)).
  { unfold wrapMarkers in Hin. simpl in Hin.
    repeat destruct Hin as [Hin|Hin]; try contradiction;
      inversion Hin; subst a m; unfold applyFormat;
      apply wrapPieces_selected; try assumption;
      unfold len in *; simpl List.length; lia. }
  destruct (wrapped_selection m m t (applyFormat t a) Hwf E) as (Hsel & _).
  rewrite E in *. cbn [value selectionStart selectionEnd] in *. auto.
Qed.

Lemma wrap_keeps_selection_witness :
  value (applyFormat (mkTextarea (lit "fix the bug") 4 7) strikethrough)
  = lit "fix ~~the~~ bug"
  /\ selectionStart (applyFormat (mkTextarea (lit "fix the bug") 4 7) strikethrough) = 6
  /\ selectionEnd (applyFormat (mkTextarea (lit "fix the bug") 4 7) strikethrough) = 9.
Proof.
  assert (Hwf : wellFormed (mkTextarea (lit "fix the bug") 4 7))
    by (unfold wellFormed; vm_compute; intuition discriminate).
  assert (Hin : In (strikethrough, lit "~~") wrapMarkers)
    by (simpl; tauto).
  assert (Hlt : selectionStart (mkTextarea (lit "fix the bug") 4 7)
                < selectionEnd (mkTextarea (lit "fix the bug") 4 7))
    by (simpl; lia).
  assert (Hb : 2 * len (value (mkTextarea (lit "fix the bug") 4 7)) + 4 < 2 ^ 32)
    by (vm_compute; reflexivity).
  destruct (wrap_keeps_selection _ _ _ Hin Hwf Hlt Hb) as (H1 & H2 & H3 & _).
  split; [exact H1 | split; [exact H2 | exact H3]].
Defined.

(** X2.  Wrapping is undone by deleting the markers on both sides of the
    new selection: what stands before the opening marker, the selection,
    and what stands after the closing marker make up the original text. *)
Theorem wrap_then_unwrap (t : Textarea) (a : Action) (m : jsstring) :
  In (a, m) wrapMarkers ->
  wellFormed t -> selectionStart t < selectionEnd t ->
  2 * len (value t) + 4 < 2 ^ 32 ->
  substring (value (applyFormat t a)) 0 (selectionStart (applyFormat t a) - len m)
  ++ substring (value (applyFormat t a)) (selectionStart (applyFormat t a))
       (selectionEnd (applyFormat t a))
  ++ substringFrom (value (applyFormat t a)) (selectionEnd (applyFormat t a) + len m)
  = value t.
Proof.
  intros Hin Hwf Hlt Hb.
  apply (wrapped_selection m m t (applyFormat t a) Hwf).
  unfold wrapMarkers in Hin. simpl in Hin.
  repeat destruct Hin as [Hin|Hin]; try contradiction;
    inversion Hin; subst a m; unfold applyFormat;
    apply wrapPieces_selected; try assumption;
    unfold len in *; simpl List.length; lia.
Qed.

Lemma wrap_then_unwrap_witness :
  substring (value (applyFormat (mkTextarea (lit "hello world") 0 5) bold)) 0
    (selectionStart (applyFormat (mkTextarea (lit "hello world") 0 5) bold) - len (lit "**"))
  ++ substring (value (applyFormat (mkTextarea (lit "hello world") 0 5) bold))
       (selectionStart (applyFormat (mkTextarea (lit "hello world") 0 5) bold))
       (selectionEnd (applyFormat (mkTextarea (lit "hello world") 0 5) bold))
  ++ substringFrom (value (applyFormat (mkTextarea (lit "hello world") 0 5) bold))
       (selectionEnd (applyFormat (mkTextarea (lit "hello world") 0 5) bold) + len (lit "**"))
  = value (mkTextarea (lit "hello world") 0 5).
Proof.
  apply (wrap_then_unwrap (mkTextarea (lit "hello world") 0 5) bold (lit "**")).
  - simpl; tauto.
  - unfold wellFormed; vm_compute; intuition discriminate.
  - simpl; lia.
  - vm_compute; reflexivity.
Defined.

(** X3.  With a non-empty selection, [link] turns the selected text into
    [[selected](url)], selects the same text again one place further on,
    and deleting the bracket before and the six characters [](url)] after
    the selection restores the original text. *)
Theorem link_keeps_selection (t : Textarea) :
  wellFormed t -> selectionStart t < selectionEnd t ->
  2 * len (value t) + 7 < 2 ^ 32 ->
  value (applyFormat t link)
  = substring (value t) 0 (selectionStart t)
    ++ (lit "[" ++ substring (value t) (selectionStart t) (selectionEnd t)
        ++ lit "](url)")
    ++ substringFrom (value t) (selectionEnd t)
  /\ selectionStart (applyFormat t link) = selectionStart t + 1
  /\ selectionEnd (applyFormat t link) = selectionEnd t + 1
  /\ substring (value (applyFormat t link)) (selectionStart (applyFormat t link))
       (selectionEnd (applyFormat t link))
     = substring (value t) (selectionStart t) (selectionEnd t)
  /\ substring (value (applyFormat t link)) 0 (selectionStart (applyFormat t link) - 1)
     ++ substring (value (applyFormat t link)) (selectionStart (applyFormat t link))
          (selectionEnd (applyFormat t link))
     ++ substringFrom (value (applyFormat t link)) (selectionEnd (applyFormat t link) + 6)
     = value t.
Proof.
  intros Hwf Hlt Hb. pose proof Hwf as (H0 & H1 & H2).
  assert (E : applyFormat t link
              = mkTextarea
                  (substring (value t) 0 (selectionStart t)
                   ++ (lit "[" ++ substring (value t) (selectionStart t) (selectionEnd t)
                       ++ lit "](url)")
                   ++ substringFrom (value t) (selectionEnd t))
                  (selectionStart t + len (lit "[")) (selectionEnd t + len (lit "["))).
  { unfold applyFormat.
    assert (Hlen : len (substring (value t) (selectionStart t) (selectionEnd t))
                   = selectionEnd t - selectionStart t)
      by (apply len_substring; lia).
    destruct (substring (value t) (selectionStart t) (selectionEnd t))
      as [|c sel] eqn:Es; [rewrite len_nil in Hlen; lia|].
    cbn [linkPieces nonEmpty].
    rewrite applyPieces_selected; try assumption;
      cbn [before after insert cursorOffset].
    - f_equal. literal_lengths. lia.
    - literal_lengths. lia. }
  destruct (wrapped_selection (lit "[") (lit "](url)") t (applyFormat t link) Hwf E)
    as (Hsel & Hback).
  change (len (lit "[")) with 1 in *. change (len (lit "](url)")) with 6 in *.
  rewrite E in *. cbn [value selectionStart selectionEnd] in *. auto.
Qed.

Lemma link_keeps_selection_witness :
  value (applyFormat (mkTextarea (lit "see docs here") 4 8) link)
  = lit "see [docs](url) here"
  /\ selectionStart (applyFormat (mkTextarea (lit "see docs here") 4 8) link) = 5
  /\ selectionEnd (applyFormat (mkTextarea (lit "see docs here") 4 8) link) = 9.
Proof.
  assert (Hwf : wellFormed (mkTextarea (lit "see docs here") 4 8))
    by (unfold wellFormed; vm_compute; intuition discriminate).
  assert (Hlt : selectionStart (mkTextarea (lit "see docs here") 4 8)
                < selectionEnd (mkTextarea (lit "see docs here") 4 8))
    by (simpl; lia).
  assert (Hb : 2 * len (value (mkTextarea (lit "see docs here") 4 8)) + 7 < 2 ^ 32)
    by (vm_compute; reflexivity).
  destruct (link_keeps_selection _ Hwf Hlt Hb) as (H1 & H2 & H3 & _).
  split; [exact H1 | split; [exact H2 | exact H3]].
Defined.

(** ** Prefixing the lines of a selection *)

Lemma length_split (s : jsstring) (c : ascii) :
  (List.length (split s c) <= List.length s + 1)%nat.
Proof.
  induction s as [|x s IH]; simpl; [lia|].
  destruct (Ascii.eqb x c); simpl; [lia|].
  destruct (split s c); simpl in *; lia.
Qed.

Lemma len_join_prefixed (prefix : jsstring) (lines : list jsstring) (c : ascii) :
  len (join (map (app prefix) lines) [c])
  = len (join lines [c]) + len prefix * Z.of_nat (List.length lines).
Proof.
  induction lines as [|l rest IH]; [simpl; rewrite len_nil; lia|].
  destruct rest as [|l' rest].
  - simpl. rewrite len_app. lia.
  - rewrite join_cons by discriminate.
    change (map (app prefix) (l :: l' :: rest))
      with ((prefix ++ l) :: map (app prefix) (l' :: rest)).
    rewrite join_cons by discriminate.
    rewrite !len_app, IH, len_cons, len_nil.
    change (List.length (l :: l' :: rest)) with (S (List.length (l' :: rest))).
    lia.
Qed.

Lemma split_join_prefixed (prefix : jsstring) (content : jsstring) :
  ~ In nl prefix ->
  split (join (map (app prefix) (split content nl)) [nl]) nl
  = map (app prefix) (split content nl).
Proof.
  intros Hp. apply split_unique.
  - pose proof (split_not_nil content nl). destruct (split content nl);
      [contradiction | discriminate].
  - apply Forall_map. eapply Forall_impl; [|apply split_no_separator].
    intros piece Hpiece Hin. apply in_app_or in Hin as [Hin|Hin]; auto.
Qed.

Lemma charIs_firstn (s : jsstring) (n : nat) (i : Z) (c : ascii) :
  i < Z.of_nat n -> charIs (firstn n s) i c = charIs s i c.
Proof.
  intros Hi. unfold charIs. destruct (Z.ltb_spec i 0); [reflexivity|].
  rewrite nth_error_firstn.
  destruct (Nat.ltb_spec (Z.to_nat i) n); [reflexivity | lia].
Qed.

Lemma linePieces_bound (prefix placeholder selected text : jsstring)
    (start : Z) :
  len (before (linePieces prefix placeholder selected text start)) <= 1
  /\ len (insert (linePieces prefix placeholder selected text start))
     <= (len prefix + 1) * (len (orElse selected placeholder) + 1).
Proof.
  unfold linePieces. cbn [before insert]. split.
  - destruct (_ && _); [rewrite len_cons, len_nil | rewrite len_nil]; lia.
  - rewrite len_join_prefixed, split_join.
    pose proof (length_split (orElse selected placeholder) nl).
    pose proof (len_nonneg prefix).
    pose proof (len_nonneg (orElse selected placeholder)).
    unfold len in *. nia.
Qed.

(** X4.  [ul], [checklist] and [quote] replace the selection (or insert a
    placeholder) by a block that has one line for each line of the selected
    text, each the original line behind the marker; the block is what is
    selected afterwards, it starts at the beginning of a line, and the text
    before and after the old selection is kept. *)
Theorem line_block (t : Textarea) (a : Action) (prefix placeholder : jsstring) :
  In (a, (prefix, placeholder)) lineMarkers ->
  wellFormed t -> 8 * len (value t) + 128 < 2 ^ 32 ->
  let selected := substring (value t) (selectionStart t) (selectionEnd t) in
  let lines := split (orElse selected placeholder) nl in
  let t' := applyFormat t a in
  split (substring (value t') (selectionStart t') (selectionEnd t')) nl
  = map (app prefix) lines
  /\ (selectionStart t' = 0
      \/ charIs (value t') (selectionStart t' - 1) nl = true)
  /\ substring (value t') 0 (selectionStart t)
     = substring (value t) 0 (selectionStart t)
  /\ substringFrom (value t') (selectionEnd t')
     = substringFrom (value t) (selectionEnd t).
Proof.
  intros Hin Hwf Hb. cbv zeta. pose proof Hwf as (H0 & H1 & H2).
  set (selected := substring (value t) (selectionStart t) (selectionEnd t)).
  set (p := linePieces prefix placeholder selected (value t) (selectionStart t)).
  assert (Hprefix : ~ In nl prefix /\ len prefix <= 6 /\ len placeholder <= 9).
  { unfold lineMarkers in Hin. simpl in Hin.
    repeat destruct Hin as [Hin|Hin]; try contradiction; inversion Hin;
      (split; [simpl; intuition discriminate | vm_compute; split; discriminate]). }
  destruct Hprefix as (Hnl & Hp6 & Hph).
  assert (Happly : applyFormat t a = applyPieces p t).
  { unfold lineMarkers in Hin. simpl in Hin.
    repeat destruct Hin as [Hin|Hin]; try contradiction; inversion Hin;
      subst; reflexivity. }
  destruct (linePieces_bound prefix placeholder selected (value t) (selectionStart t))
    as (Hbefore & Hinsert). fold p in Hbefore, Hinsert.
  assert (Hcontent : len (orElse selected placeholder) <= len (value t) + 9).
  { assert (len selected = selectionEnd t - selectionStart t)
      by (apply len_substring; lia).
    pose proof (len_nonneg placeholder).
    destruct selected; simpl orElse; [lia|]. lia. }
  pose proof (len_nonneg prefix). pose proof (len_nonneg (before p)).
  pose proof (len_nonneg (insert p)).
  pose proof (len_nonneg (orElse selected placeholder)).
  assert (Hafter : after p = []) by reflexivity.
  rewrite Happly, applyPieces_zero_offset;
    [ | assumption | reflexivity | rewrite Hafter, len_nil; nia ].
  cbn [value selectionStart selectionEnd]. rewrite Hafter, app_nil_r.
  set (A := substring (value t) 0 (selectionStart t)).
  set (B := substringFrom (value t) (selectionEnd t)).
  assert (HA : len A = selectionStart t)
    by (unfold A; rewrite len_substring by lia; lia).
  assert (Hblock : substring (A ++ (before p ++ insert p) ++ B)
                     (selectionStart t + len (before p))
                     (selectionStart t + len (before p) + len (insert p))
                   = insert p).
  { replace (A ++ (before p ++ insert p) ++ B)
      with ((A ++ before p) ++ insert p ++ B) by (now rewrite <- !app_assoc).
    replace (selectionStart t + len (before p)) with (len (A ++ before p))
      by (rewrite len_app; lia).
    apply substring_middle. }
  repeat split.
  - rewrite Hblock. unfold p, linePieces. cbn [insert].
    now apply split_join_prefixed.
  - assert (Hcases :
              (before p = []
               /\ (selectionStart t = 0
                   \/ charIs (value t) (selectionStart t - 1) nl = true))
              \/ before p = [nl]).
    { unfold p, linePieces. cbn [before].
      destruct (Z.ltb_spec 0 (selectionStart t));
        destruct (charIs (value t) (selectionStart t - 1) nl); simpl; auto;
        left; split; auto; left; lia. }
    destruct Hcases as [(Hbef & [Hz|Hc])|Hbef]; rewrite Hbef.
    + left. rewrite len_nil. lia.
    + right. rewrite len_nil, Z.add_0_r. rewrite charIs_app_l by lia.
      unfold A. rewrite substring_prefix by lia.
      rewrite charIs_firstn by lia. exact Hc.
    + right. rewrite len_cons, len_nil.
      replace (selectionStart t + (1 + 0) - 1) with (len A + 0) by lia.
      rewrite charIs_app_r by lia. reflexivity.
  - rewrite <- HA at 1. apply slice_before.
  - replace (A ++ (before p ++ insert p) ++ B)
      with ((A ++ before p ++ insert p) ++ B) by (now rewrite <- !app_assoc).
    replace (selectionStart t + len (before p) + len (insert p))
      with (len (A ++ before p ++ insert p)) by (rewrite !len_app; lia).
    apply substringFrom_tail.
Qed.

Lemma line_block_witness :
  split (substring
           (value (applyFormat (mkTextarea (lit "todo:" ++ nl :: lit "a" ++ nl :: lit "b") 6 9) checklist))
           (selectionStart (applyFormat (mkTextarea (lit "todo:" ++ nl :: lit "a" ++ nl :: lit "b") 6 9) checklist))
           (selectionEnd (applyFormat (mkTextarea (lit "todo:" ++ nl :: lit "a" ++ nl :: lit "b") 6 9) checklist)))
    nl
  = [lit "- [ ] a"; lit "- [ ] b"].
Proof.
  assert (Hwf : wellFormed (mkTextarea (lit "todo:" ++ nl :: lit "a" ++ nl :: lit "b") 6 9))
    by (unfold wellFormed; vm_compute; intuition discriminate).
  assert (Hin : In (checklist, (lit "- [ ] ", lit "task item")) lineMarkers)
    by (simpl; tauto).
  assert (Hb : 8 * len (value (mkTextarea (lit "todo:" ++ nl :: lit "a" ++ nl :: lit "b") 6 9)) + 128 < 2 ^ 32)
    by (vm_compute; reflexivity).
  destruct (line_block _ _ _ _ Hin Hwf Hb) as (H1 & _).
  exact H1.
Defined.

(** ** More on the heading case *)

Lemma cursor_collapsed (x : Z) (t : Textarea) :
  selectionStart (set_selectionStart x (set_selectionEnd x t))
  = selectionEnd (set_selectionStart x (set_selectionEnd x t)).
Proof.
  unfold set_selectionStart, set_selectionEnd, setSelectionRange.
  generalize (toUnsignedLong x) as u. intros u.
  split_comparisons; lia.
Qed.

(** X5.  [heading] always leaves a cursor, never a selection: whatever the
    textarea held, [selectionStart] and [selectionEnd] are equal
    afterwards. *)
Theorem heading_leaves_cursor (t : Textarea) :
  selectionStart (applyFormat t heading) = selectionEnd (applyFormat t heading).
Proof.
  unfold applyFormat, applyHeading, dispatchInputEvent.
  repeat destruct (startsWith _ _); apply cursor_collapsed.
Qed.

Lemma lastIndexDown_bounds (s : jsstring) (c : ascii) (k : nat) :
  -1 <= lastIndexDown s c k <= Z.of_nat k
  /\ (0 <= lastIndexDown s c k -> charIs s (lastIndexDown s c k) c = true)
  /\ (forall i, lastIndexDown s c k < i -> i <= Z.of_nat k ->
        charIs s i c = false).
Proof.
  induction k as [|k IH]; rewrite lastIndexDown_eq.
  - destruct (charIs s (Z.of_nat 0) c) eqn:E.
    + repeat split; try lia; auto.
    + repeat split; try lia. intros i Hi1 Hi2.
      replace i with (Z.of_nat 0) by lia. exact E.
  - destruct (charIs s (Z.of_nat (S k)) c) eqn:E.
    + repeat split; try lia; auto.
    + destruct IH as (Hb & Hf & Hn). repeat split; try lia; auto.
      intros i Hi1 Hi2. destruct (Z.eq_dec i (Z.of_nat (S k))) as [->|Hne];
        [exact E | apply Hn; lia].
Qed.

(** X6.  For a selection that starts behind the first character, the line
    start [applyFormat] computes is the start of the line the selection
    starts in: it is not behind the selection start, it is 0 or follows a
    line break, and no line break stands between it and the selection
    start. *)
Theorem lineStart_correct (text : jsstring) (start : Z) :
  0 < start -> start <= len text ->
  let lineStart := lastIndexOf text nl (start - 1) + 1 in
  0 <= lineStart /\ lineStart <= start
  /\ (lineStart = 0 \/ charIs text (lineStart - 1) nl = true)
  /\ (forall i, lineStart <= i -> i < start -> charIs text i nl = false).
Proof.
  intros H0 H1. cbv zeta. unfold lastIndexOf.
  replace (Z.min (Z.max (start - 1) 0) (len text - 1)) with (start - 1) by lia.
  destruct (Z.ltb_spec (start - 1) 0); [lia|].
  destruct (lastIndexDown_bounds text nl (Z.to_nat (start - 1)))
    as (Hb & Hf & Hn).
  rewrite Z2Nat.id in * by lia.
  repeat split; try lia.
  - destruct (Z.eq_dec (lastIndexDown text nl (Z.to_nat (start - 1))) (-1));
      [left; lia | right].
    replace (lastIndexDown text nl (Z.to_nat (start - 1)) + 1 - 1)
      with (lastIndexDown text nl (Z.to_nat (start - 1))) by lia.
    apply Hf. lia.
  - intros i Hi1 Hi2. apply Hn; lia.
Qed.

Lemma lineStart_correct_witness :
  0 <= lastIndexOf (lit "ab" ++ nl :: lit "cd") nl (5 - 1) + 1
  /\ lastIndexOf (lit "ab" ++ nl :: lit "cd") nl (5 - 1) + 1 <= 5
  /\ (lastIndexOf (lit "ab" ++ nl :: lit "cd") nl (5 - 1) + 1 = 0
      \/ charIs (lit "ab" ++ nl :: lit "cd")
           (lastIndexOf (lit "ab" ++ nl :: lit "cd") nl (5 - 1) + 1 - 1) nl
         = true).
Proof.
  assert (H0 : 0 < 5) by lia.
  assert (H1 : 5 <= len (lit "ab" ++ nl :: lit "cd"))
    by (vm_compute; discriminate).
  destruct (lineStart_correct (lit "ab" ++ nl :: lit "cd") 5 H0 H1)
    as (A & B & C & _).
  split; [exact A | split; [exact B | exact C]].
Defined.

(** How many characters [heading] adds to a line of each level. *)
Lemma len_replaceAtStart (s p r : jsstring) :
  startsWith s p = true ->
  len (replaceAtStart s p r) = len s + len r - len p.
Proof.
  intros H. unfold replaceAtStart. rewrite H.
  rewrite (startsWith_inv s p H) at 2. rewrite !len_app. lia.
Qed.

(** X7.  For a well-formed buffer whose selection starts behind the first
    character, [heading] changes the length of the text by exactly the
    length difference of the prefixes: minus 4 on a [### ] line, plus 1 on a
    [## ] or [# ] line, plus 3 on a line without heading; the level is read
    from the text between the line start and the selection end. *)
Theorem heading_length (t : Textarea) :
  wellFormed t -> 0 < selectionStart t ->
  let lineStart := lastIndexOf (value t) nl (selectionStart t - 1) + 1 in
  let lineText := substring (value t) lineStart (selectionEnd t) in
  len (value (applyFormat t heading))
  = len (value t)
    + match headingLevel lineText with
      | 3%nat => -4
      | 2%nat | 1%nat => 1
      | _ => 3
      end.
Proof.
  intros Hwf Hpos. pose proof Hwf as (H0 & H1 & H2). cbv zeta.
  destruct (lineStart_correct (value t) (selectionStart t) Hpos ltac:(lia))
    as (HL0 & HL1 & _).
  set (L := lastIndexOf (value t) nl (selectionStart t - 1) + 1) in *.
  unfold applyFormat, applyHeading, dispatchInputEvent, headingLevel.
  fold L.
  set (lineText := substring (value t) L (selectionEnd t)).
  assert (Hline : len lineText = selectionEnd t - L)
    by (apply len_substring; lia).
  assert (Hpre : len (substring (value t) 0 L) = L)
    by (rewrite len_substring by lia; lia).
  assert (Hpost : len (substringFrom (value t) (selectionEnd t))
                  = len (value t) - selectionEnd t)
    by (apply len_substringFrom; lia).
  destruct (startsWith lineText (lit "### ")) eqn:E3;
    [|destruct (startsWith lineText (lit "## ")) eqn:E2;
      [|destruct (startsWith lineText (lit "# ")) eqn:E1]];
    rewrite value_set_selectionStart, value_set_selectionEnd, value_set_value,
      !len_app, ?len_replaceAtStart by assumption;
    rewrite ?len_nil; literal_lengths; lia.
Qed.

Lemma heading_length_witness :
  len (value (applyFormat (mkTextarea (lit "### abc") 7 7) heading))
  = len (value (mkTextarea (lit "### abc") 7 7)) + -4.
Proof.
  assert (Hwf : wellFormed (mkTextarea (lit "### abc") 7 7))
    by (unfold wellFormed; vm_compute; intuition discriminate).
  assert (Hpos : 0 < selectionStart (mkTextarea (lit "### abc") 7 7))
    by (simpl; lia).
  exact (heading_length _ Hwf Hpos).
Defined.

(** X8.  The one position the line start is wrong for: with the cursor at
    0 in a text that begins with a line break, the search at index -1 is
    moved to index 0 and finds that line break, and [heading] puts a line
    break, [## ] and another line break in front of the text. *)
Theorem heading_at_leading_line_break (rest : jsstring) :
  len rest + 5 < 2 ^ 32 ->
  applyFormat (mkTextarea (nl :: rest) 0 0) heading
  = mkTextarea (nl :: lit "## " ++ nl :: nl :: rest) 3 3.
Proof.
  intros Hb. pose proof (len_nonneg rest) as Hr.
  unfold applyFormat, applyHeading, dispatchInputEvent.
  cbn [value selectionStart selectionEnd].
  assert (HL : lastIndexOf (nl :: rest) nl (0 - 1) + 1 = 1).
  { unfold lastIndexOf. rewrite len_cons.
    replace (Z.min (Z.max (0 - 1) 0) (1 + len rest - 1)) with 0 by lia.
    reflexivity. }
  rewrite HL.
  assert (Hline : substring (nl :: rest) 1 0 = [nl]).
  { unfold substring. rewrite len_cons.
    replace (Z.min (Z.max 1 0) (1 + len rest)) with 1 by lia.
    replace (Z.min (Z.max 0 0) (1 + len rest)) with 0 by lia.
    reflexivity. }
  assert (Hpre : substring (nl :: rest) 0 1 = [nl]).
  { unfold substring. rewrite len_cons.
    replace (Z.min (Z.max 1 0) (1 + len rest)) with 1 by lia.
    replace (Z.min (Z.max 0 0) (1 + len rest)) with 0 by lia.
    reflexivity. }
  assert (Hpost : substringFrom (nl :: rest) 0 = nl :: rest).
  { rewrite substringFrom_suffix by (rewrite ?len_cons; lia). reflexivity. }
  rewrite Hline, Hpre, Hpost.
  change (startsWith [nl] (lit "### ")) with false.
  change (startsWith [nl] (lit "## ")) with false.
  change (startsWith [nl] (lit "# ")) with false.
  cbv iota.
  rewrite set_cursor_after_value.
  - reflexivity.
  - unfold wellFormed. simpl. rewrite len_cons. lia.
  - lia.
  - simpl app. rewrite !len_cons. lia.
  - lia.
Qed.

Lemma heading_at_leading_line_break_witness :
  applyFormat (mkTextarea (nl :: lit "abc") 0 0) heading
  = mkTextarea (nl :: lit "## " ++ nl :: nl :: lit "abc") 3 3.
Proof.
  apply (heading_at_leading_line_break (lit "abc")). vm_compute. reflexivity.
Defined.

(** ** The word counter *)

Section WordCount.

Variable isSpace : ascii -> bool.

Lemma splitSpaces_not_nil (s : jsstring) (inRun : bool) :
  splitSpaces isSpace s inRun <> [].
Proof.
  revert inRun. induction s as [|c s IH]; intros inRun; simpl; [discriminate|].
  destruct (isSpace c).
  - destruct inRun; [apply IH | discriminate].
  - destruct (splitSpaces isSpace s false); discriminate.
Qed.

(** The number of pieces, counted by word starts. *)
Lemma length_splitSpaces (s : jsstring) :
  List.length (splitSpaces isSpace s false)
  = (wordStarts isSpace s false + 1
     + if lastIsSpace isSpace s false then 1 else 0)%nat
  /\ List.length (splitSpaces isSpace s true)
     = (wordStarts isSpace s true
        + if lastIsSpace isSpace s true then 1 else 0)%nat.
Proof.
  induction s as [|c s (IHf & IHt)]; [split; reflexivity|].
  simpl. destruct (isSpace c) eqn:E.
  - simpl. rewrite IHt. split; lia.
  - pose proof (splitSpaces_not_nil s false) as Hne.
    destruct (splitSpaces isSpace s false) as [|piece rest] eqn:Es;
      [contradiction|].
    simpl in *. rewrite IHf. split; lia.
Qed.

Lemma wordStarts_trimStart (s : jsstring) :
  wordStarts isSpace (trimStart isSpace s) true = wordStarts isSpace s true.
Proof.
  induction s as [|c s IH]; simpl; [reflexivity|].
  destruct (isSpace c) eqn:E; [exact IH|]. simpl. now rewrite E.
Qed.

Lemma wordStarts_app_space (s : jsstring) (c : ascii) (b : bool) :
  isSpace c = true ->
  wordStarts isSpace (s ++ [c]) b = wordStarts isSpace s b.
Proof.
  intros Hc. revert b. induction s as [|x s IH]; intros b; simpl.
  - now rewrite Hc.
  - destruct (isSpace x); now rewrite IH.
Qed.

Lemma wordStarts_trimEnd (s : jsstring) (b : bool) :
  wordStarts isSpace (trimEnd isSpace s) b = wordStarts isSpace s b.
Proof.
  unfold trimEnd. rewrite <- (rev_involutive s) at 2.
  induction (rev s) as [|c r IH]; simpl; [reflexivity|].
  destruct (isSpace c) eqn:E.
  - rewrite IH. symmetry. now apply wordStarts_app_space.
  - reflexivity.
Qed.

Lemma wordStarts_trim (s : jsstring) :
  wordStarts isSpace (trim isSpace s) true = wordStarts isSpace s true.
Proof. unfold trim. now rewrite wordStarts_trimEnd, wordStarts_trimStart. Qed.

Lemma trimStart_head (s : jsstring) :
  match trimStart isSpace s with
  | [] => True
  | c :: _ => isSpace c = false
  end.
Proof.
  induction s as [|c s IH]; simpl; [exact I|].
  destruct (isSpace c) eqn:E; [exact IH | exact E].
Qed.

Lemma lastIsSpace_app (s : jsstring) (c : ascii) (d : bool) :
  lastIsSpace isSpace (s ++ [c]) d = isSpace c.
Proof. revert d. induction s as [|x s IH]; intros d; simpl; auto. Qed.

Lemma lastIsSpace_trimEnd (s : jsstring) :
  lastIsSpace isSpace (trimEnd isSpace s) false = false.
Proof.
  unfold trimEnd. pose proof (trimStart_head (rev s)) as H.
  destruct (trimStart isSpace (rev s)) as [|c r]; [reflexivity|].
  simpl. now rewrite lastIsSpace_app.
Qed.

Lemma trimStart_app_word (a : jsstring) (c : ascii) :
  isSpace c = false ->
  trimStart isSpace (a ++ [c]) = trimStart isSpace a ++ [c].
Proof.
  intros Hc. induction a as [|x a IH]; simpl.
  - now rewrite Hc.
  - destruct (isSpace x); [exact IH | reflexivity].
Qed.

Lemma trimEnd_head (c : ascii) (s : jsstring) :
  isSpace c = false -> exists u, trimEnd isSpace (c :: s) = c :: u.
Proof.
  intros Hc. unfold trimEnd. simpl rev.
  rewrite trimStart_app_word by exact Hc. rewrite rev_app_distr. simpl. eauto.
Qed.

Lemma countWords_counts (text : jsstring) :
  countWords isSpace text = wordStarts isSpace text true.
Proof.
  unfold countWords. rewrite <- wordStarts_trim. unfold trim.
  pose proof (trimStart_head text) as Hhead.
  pose proof (lastIsSpace_trimEnd (trimStart isSpace text)) as Hlast.
  destruct (trimStart isSpace text) as [|c u] eqn:Eu.
  - reflexivity.
  - destruct (trimEnd_head c u Hhead) as [v Hv]. rewrite Hv in *.
    cbn [nonEmpty].
    destruct (length_splitSpaces (c :: v)) as (Hf & _).
    rewrite Hf, Hlast. simpl. rewrite Hhead. lia.
Qed.

(** X9.  The word count of [updateWordCount] is the number of word starts
    in the text: the characters that are not white space and stand at the
    start of the text or behind white space.  Leading, trailing and repeated
    white space does not count. *)
Theorem countWords_wordStarts (text : jsstring) :
  countWords isSpace text = wordStarts isSpace text true.
Proof. apply countWords_counts. Qed.

Lemma wordStarts_zero (s : jsstring) :
  wordStarts isSpace s true = 0%nat <-> forallb isSpace s = true.
Proof.
  induction s as [|c s IH]; simpl; [tauto|].
  destruct (isSpace c); simpl; [exact IH|]. split; [lia | discriminate].
Qed.

(** X10.  The counter shows zero words exactly for a text that consists of
    white space only (the empty text included). *)
Theorem countWords_zero (text : jsstring) :
  countWords isSpace text = 0%nat <-> forallb isSpace text = true.
Proof. rewrite countWords_counts. apply wordStarts_zero. Qed.

Lemma wordStarts_app (a b : jsstring) (c : ascii) (d : bool) :
  isSpace c = true ->
  wordStarts isSpace (a ++ c :: b) d
  = (wordStarts isSpace a d + wordStarts isSpace b true)%nat.
Proof.
  intros Hc. revert d. induction a as [|x a IH]; intros d; simpl.
  - now rewrite Hc.
  - destruct (isSpace x); rewrite IH; lia.
Qed.

(** X11.  Words add up across white space: the count of two texts joined
    by a white-space character is the sum of their counts. *)
Theorem countWords_joined (a b : jsstring) (c : ascii) :
  isSpace c = true ->
  countWords isSpace (a ++ c :: b)
  = (countWords isSpace a + countWords isSpace b)%nat.
Proof.
  intros Hc. rewrite !countWords_counts. now apply wordStarts_app.
Qed.

End WordCount.

Lemma countWords_joined_witness :
  countWords asciiSpace (lit "fix the" ++ nl :: lit "  login bug ")
  = (countWords asciiSpace (lit "fix the")
     + countWords asciiSpace (lit "  login bug "))%nat.
Proof.
  apply (countWords_joined asciiSpace (lit "fix the") (lit "  login bug ") nl).
  reflexivity.
Defined.

(** ** The badge and the sections *)

Lemma length_entriesFor (summary linked checklist breaking screenshots : bool)
    (inner : jsstring) :
  List.length (entriesFor summary linked checklist breaking screenshots inner)
  = (4 + (if summary then 1 else 0) + (if linked then 1 else 0)
     + (if checklist then 1 else 0) + (if breaking then 1 else 0)
     + (if screenshots then 1 else 0))%nat.
Proof.
  destruct summary, linked, checklist, breaking, screenshots; reflexivity.
Qed.

Lemma field_getStructureSettings_read (checked : string -> option bool) :
  let s := spread2 defaults (getStructureSettings checked) in
  let read id := match checked id with
                 | Some b => b
                 | None => true
                 end in
  truthy (field s "includeSummary") = read "toggleSummary"%string
  /\ truthy (field s "includeLinkedIssues") = read "toggleLinkedIssues"%string
  /\ truthy (field s "includeChecklist") = read "toggleChecklist"%string
  /\ truthy (field s "includeBreakingChanges") = read "toggleBreaking"%string
  /\ truthy (field s "includeScreenshots") = read "toggleScreenshots"%string.
Proof.
  cbv zeta. unfold getStructureSettings.
  rewrite !field_spread_toggle by toggle_key. simpl getField.
  repeat split;
    match goal with
    | |- context [checked ?id] => destruct (checked id) as [[|]|]; reflexivity
    end.
Qed.

(** X12.  The request built from the toggles yields four sections plus one
    for every toggle that is not switched off; a toggle whose checkbox is
    missing from the page counts as on.  When all five checkboxes exist,
    that is four plus the number the badge shows as active. *)
Theorem sections_match_badge (checked : string -> option bool)
    (prLink : jsval) (inner : jsstring) :
  relatedInner prLink = Ok inner ->
  exists entries,
    sectionEntries prLink (getStructureSettings checked) = Ok entries
    /\ List.length entries
       = (4 + List.length
                (filter (fun id => match checked id with
                                   | Some false => false
                                   | _ => true
                                   end) toggleIds))%nat
    /\ ((forall id, In id toggleIds -> checked id <> None) ->
        List.length entries = (4 + activeCount checked)%nat).
Proof.
  intros Hinner. eexists. split; [apply (sectionEntries_entriesFor _ _ _ Hinner)|].
  cbv zeta. rewrite length_entriesFor.
  destruct (field_getStructureSettings_read checked) as (-> & -> & -> & -> & ->).
  unfold activeCount, toggleIds. cbn [filter]. split.
  - destruct (checked "toggleSummary"%string) as [[|]|];
      destruct (checked "toggleChecklist"%string) as [[|]|];
      destruct (checked "toggleBreaking"%string) as [[|]|];
      destruct (checked "toggleScreenshots"%string) as [[|]|];
      destruct (checked "toggleLinkedIssues"%string) as [[|]|]; reflexivity.
  - intros Hall.
    pose proof (Hall "toggleSummary"%string ltac:(simpl; tauto)) as H1.
    pose proof (Hall "toggleChecklist"%string ltac:(simpl; tauto)) as H2.
    pose proof (Hall "toggleBreaking"%string ltac:(simpl; tauto)) as H3.
    pose proof (Hall "toggleScreenshots"%string ltac:(simpl; tauto)) as H4.
    pose proof (Hall "toggleLinkedIssues"%string ltac:(simpl; tauto)) as H5.
    destruct (checked "toggleSummary"%string) as [[|]|]; try congruence;
      destruct (checked "toggleChecklist"%string) as [[|]|]; try congruence;
      destruct (checked "toggleBreaking"%string) as [[|]|]; try congruence;
      destruct (checked "toggleScreenshots"%string) as [[|]|]; try congruence;
      destruct (checked "toggleLinkedIssues"%string) as [[|]|]; try congruence;
      reflexivity.
Qed.

Lemma sections_match_badge_witness :
  exists entries,
    sectionEntries JUndefined
      (getStructureSettings
         (fun id => Some (String.eqb id "toggleChecklist")))
    = Ok entries
    /\ List.length entries = 5%nat.
Proof.
  destruct (sections_match_badge
              (fun id => Some (String.eqb id "toggleChecklist")) JUndefined
              (lit "placeholder like #issue-number") eq_refl)
    as (entries & H1 & H2 & _).
  exists entries. split; [exact H1 | exact H2].
Defined.

(** ** More on the repository reference *)

(** X13.  Both fields of a reference [parseGitHubUrl] returns are
    non-empty and contain no slash. *)
Theorem parseGitHubUrl_fields (newURL : jsstring -> exn URLRecord)
    (url : jsstring) (r : RepoRef) :
  parseGitHubUrl newURL url = Ok (Some r) ->
  owner r <> [] /\ repo r <> []
  /\ ~ In "/"%char (owner r) /\ ~ In "/"%char (repo r).
Proof.
  unfold parseGitHubUrl, parseGitHubUrl_try. intros H.
  destruct (newURL url) as [u|e]; cbn [bindE] in H; [|discriminate].
  set (parts := filter Boolean (split (replaceAtEnd (pathname u) (lit ".git") []) "/"%char)) in *.
  assert (Hparts : forall piece, In piece parts ->
                     piece <> [] /\ ~ In "/"%char piece).
  { intros piece Hin. apply filter_In in Hin as (Hin & Hne). split.
    - intros ->. discriminate.
    - pose proof (split_no_separator (replaceAtEnd (pathname u) (lit ".git") []) "/"%char) as Hall.
      rewrite Forall_forall in Hall. now apply Hall. }
  destruct (2 <=? Z.of_nat (List.length parts)) eqn:E; [|discriminate].
  destruct parts as [|o [|r' rest]]; simpl in E; try discriminate.
  inversion H; subst r. simpl.
  destruct (Hparts o ltac:(simpl; tauto)) as (Ho1 & Ho2).
  destruct (Hparts r' ltac:(simpl; tauto)) as (Hr1 & Hr2).
  auto.
Qed.

Lemma parseGitHubUrl_fields_witness :
  owner (mkRepoRef (lit "owner") (lit "repo")) <> []
  /\ repo (mkRepoRef (lit "owner") (lit "repo")) <> [].
Proof.
  destruct (parseGitHubUrl_fields sampleURL
              (lit "https://github.com/owner/repo/issues/7")
              (mkRepoRef (lit "owner") (lit "repo")) eq_refl)
    as (H1 & H2 & _).
  split; [exact H1 | exact H2].
Defined.

Lemma replaceAtEnd_no_match (s p : jsstring) :
  endsWith s p = false -> replaceAtEnd s p [] = s.
Proof. intros H. unfold replaceAtEnd. now rewrite H. Qed.

(** X14.  A clone address and the web address of a repository give the
    same reference: a path with [.git] appended parses like the path itself,
    unless the path already ends with [.git]. *)
Theorem clone_url_same_reference (newURL : jsstring -> exn URLRecord)
    (url url' : jsstring) (u u' : URLRecord) :
  newURL url = Ok u -> newURL url' = Ok u' ->
  pathname u' = pathname u ++ lit ".git" ->
  endsWith (pathname u) (lit ".git") = false ->
  parseGitHubUrl newURL url' = parseGitHubUrl newURL url.
Proof.
  intros Hu Hu' Hpath Hend. unfold parseGitHubUrl, parseGitHubUrl_try.
  rewrite Hu, Hu'. simpl bindE.
  now rewrite Hpath, replaceAtEnd_suffix, replaceAtEnd_no_match.
Qed.

Lemma clone_url_same_reference_witness :
  parseGitHubUrl sampleURLs (lit "https://github.com/owner/repo.git")
  = parseGitHubUrl sampleURLs (lit "https://github.com/owner/repo").
Proof.
  apply (clone_url_same_reference sampleURLs
           (lit "https://github.com/owner/repo")
           (lit "https://github.com/owner/repo.git")
           (mkURL (lit "https:") (lit "github.com") [] (lit "/owner/repo") [] [])
           (mkURL (lit "https:") (lit "github.com") [] (lit "/owner/repo.git") [] []));
    reflexivity.
Defined.

(** ** The summaries of well-formed responses *)

Lemma arrayJoin_strings (l : list jsstring) (sep : jsstring) :
  arrayJoin (map JStr l) sep = Ok (join l sep).
Proof.
  unfold arrayJoin. induction l as [|a rest IH]; [reflexivity|].
  destruct rest as [|b rest]; [reflexivity|].
  change (joinWith toString sep (map JStr (a :: b :: rest)))
    with (b' <- joinWith toString sep (map JStr (b :: rest)) ;;
          Ok (a ++ sep ++ b')).
  rewrite IH. reflexivity.
Qed.

Lemma filterE_tree (items : list jsval) (entries : list (jsstring * jsval)) :
  Forall2 isTreeEntry items entries ->
  exists kept,
    filterE (fun item => ty <- getProp item "type" ;;
                         Ok (strictEqualsString ty (lit "blob"))) items
    = Ok kept
    /\ Forall2 isTreeEntry kept (filter isBlob entries).
Proof.
  induction 1 as [|item e items entries (Hpath & Htype) Hrest (kept & Hk & Hf)].
  - exists []. split; [reflexivity | constructor].
  - cbn [filterE filter]. rewrite Htype. cbn [bindE]. rewrite Hk. cbn [bindE].
    unfold isBlob at 1. destruct (strictEqualsString (snd e) (lit "blob")).
    + exists (item :: kept). split; [reflexivity|]. constructor; [split|]; auto.
    + exists kept. split; [reflexivity | exact Hf].
Qed.

Lemma Forall2_firstn {A B} (R : A -> B -> Prop) (n : nat) (l : list A)
    (l' : list B) :
  Forall2 R l l' -> Forall2 R (firstn n l) (firstn n l').
Proof.
  intros H. revert n. induction H; intros [|n]; simpl; constructor; auto.
Qed.

Lemma mapE_paths (items : list jsval) (entries : list (jsstring * jsval)) :
  Forall2 isTreeEntry items entries ->
  mapE (fun item => getProp item "path") items
  = Ok (map JStr (map fst entries)).
Proof.
  induction 1 as [|item e items entries (Hpath & _) Hrest IH]; [reflexivity|].
  cbn [mapE map]. rewrite Hpath. cbn [bindE]. rewrite IH. reflexivity.
Qed.

(** X15.  For a response whose tree entries all carry a string [path],
    the project context lists the paths of the entries of type [blob], in
    the order of the response, one per line, and stops after the first
    hundred; entries of any other type are left out. *)
Theorem treeSummary_blobs (response data : jsval) (items : list jsval)
    (entries : list (jsstring * jsval)) :
  getProp response "data" = Ok data ->
  getProp data "tree" = Ok (JArr items) ->
  Forall2 isTreeEntry items entries ->
  treeSummary response
  = Ok (JStr (join (firstn 100 (map fst (filter isBlob entries))) [nl]))
  /\ (List.length (firstn 100 (map fst (filter isBlob entries))) <= 100)%nat.
Proof.
  intros Hdata Htree Hitems. split; [|apply firstn_le_length].
  unfold treeSummary. rewrite Hdata. cbn [bindE]. rewrite Htree. cbn [bindE].
  destruct (filterE_tree items entries Hitems) as (kept & Hk & Hf).
  unfold arrayFilter. rewrite Hk. cbn [bindE].
  rewrite (mapE_paths _ _ (Forall2_firstn isTreeEntry 100 _ _ Hf)). cbn [bindE].
  rewrite arrayJoin_strings. cbn [bindE]. now rewrite firstn_map.
Qed.

Lemma treeSummary_blobs_witness :
  treeSummary sampleTreeResponse = Ok (JStr (join [lit "a.js"] [nl])).
Proof.
  assert (H : Forall2 isTreeEntry
                [JObj [("path"%string, JStr (lit "a.js"));
                       ("type"%string, JStr (lit "blob"))];
                 JObj [("path"%string, JStr (lit "src"));
                       ("type"%string, JStr (lit "tree"))]]
                [(lit "a.js", JStr (lit "blob")); (lit "src", JStr (lit "tree"))])
    by (repeat constructor).
  destruct (treeSummary_blobs sampleTreeResponse _ _ _ eq_refl eq_refl H)
    as (H1 & _).
  exact H1.
Defined.

Lemma split_head_no_separator (s : jsstring) (c : ascii) :
  ~ In c (nth 0 (split s c) []).
Proof.
  pose proof (split_no_separator s c) as Hall.
  destruct (split s c) as [|p rest]; simpl; [tauto|].
  now inversion Hall.
Qed.

Lemma len_replaceAll_char (s : jsstring) (c r : ascii) :
  len (replaceAll s c [r]) = len s.
Proof.
  induction s as [|x s IH]; [reflexivity|].
  unfold replaceAll in *. simpl flat_map.
  destruct (Ascii.eqb x c); simpl app; rewrite !len_cons, IH; reflexivity.
Qed.

Lemma noLineBreak_replaceAll (s : jsstring) :
  noLineBreak (replaceAll s nl (lit " ")) = true.
Proof.
  unfold noLineBreak, replaceAll.
  induction s as [|x s IH]; [reflexivity|].
  cbn [flat_map]. rewrite forallb_app, IH, andb_true_r.
  destruct (Ascii.eqb x nl) eqn:E; [reflexivity|].
  cbn [forallb]. now rewrite E.
Qed.

Lemma len_substring_le (s : jsstring) (n : Z) :
  0 <= n -> len (substring s 0 n) <= n.
Proof.
  intros Hn. unfold substring. pose proof (len_nonneg s).
  replace (Z.min (Z.max 0 0) (len s)) with 0 by lia.
  unfold len. rewrite length_firstn. simpl skipn. lia.
Qed.

(** The first piece of a split is followed by the separator or by nothing. *)
Lemma split_head_rest (s : jsstring) (c : ascii) :
  exists rest,
    s = nth 0 (split s c) [] ++ rest /\ (rest = [] \/ exists r, rest = c :: r).
Proof.
  pose proof (split_join s c) as Hj. pose proof (split_not_nil s c) as Hne.
  destruct (split s c) as [|p [|q rest]]; [contradiction| |].
  - exists []. simpl in *. rewrite app_nil_r. auto.
  - rewrite join_cons in Hj by discriminate. simpl nth.
    exists ([c] ++ join (q :: rest) [c]). split; [now symmetry|].
    right. eexists. reflexivity.
Qed.

Lemma replaceAll_char_map (s : jsstring) (c r : ascii) :
  replaceAll s c [r] = map (fun x => if Ascii.eqb x c then r else x) s.
Proof.
  unfold replaceAll. induction s as [|x s IH]; [reflexivity|].
  cbn [flat_map map]. rewrite IH. now destruct (Ascii.eqb x c).
Qed.

Lemma substring_firstn (s : jsstring) (n : Z) :
  0 <= n -> substring s 0 n = firstn (Z.to_nat n) s.
Proof.
  intros Hn. unfold substring. pose proof (len_nonneg s).
  replace (Z.min (Z.max 0 0) (len s)) with 0 by lia.
  destruct (Z.le_ge_cases n (len s)) as [Hle|Hge].
  - replace (Z.min (Z.max n 0) (len s)) with n by lia.
    replace (Z.min 0 n) with 0 by lia.
    replace (Z.max 0 n - 0) with n by lia. reflexivity.
  - replace (Z.min (Z.max n 0) (len s)) with (len s) by lia.
    replace (Z.min 0 (len s)) with 0 by lia.
    replace (Z.max 0 (len s) - 0) with (len s) by lia. simpl skipn.
    unfold len in *. rewrite Nat2Z.id, !firstn_all2; [reflexivity | lia | lia].
Qed.

(** X16.  For an issue whose number is a non-negative integer below 2^53,
    whose state, title and [created_at] are strings, and whose body is [null]
    or a string of ASCII characters, the line of the summary reads
    [- #number [state] (Created: day) title], a line break, and
    [  Snippet: snippet...], where [day] is the part of [created_at] before
    its first [T] (all of it when there is none), and [snippet] is
    [No description] for a [null] or empty body and otherwise the first 200
    characters of the body with every line break replaced by a space. *)
Theorem issueLine_wellformed (issue body : jsval) (n : Z)
    (st created title : jsstring) :
  getProp issue "number" = Ok (JNum n) -> 0 <= n < 2 ^ 53 ->
  getProp issue "state" = Ok (JStr st) ->
  getProp issue "created_at" = Ok (JStr created) ->
  getProp issue "title" = Ok (JStr title) ->
  getProp issue "body" = Ok body ->
  (body = JNull
   \/ exists b, body = JStr b
                /\ Forall (fun c => (nat_of_ascii c < 128)%nat) b) ->
  exists day rest snippet,
    issueLine issue
    = Ok (JStr (lit "- #" ++ decimal n ++ lit " [" ++ st ++ lit "] (Created: "
                ++ day ++ lit ") " ++ title ++ [nl] ++ lit "  Snippet: "
                ++ snippet ++ lit "..."))
    /\ created = day ++ rest /\ ~ In "T"%char day
    /\ (rest = [] \/ exists r, rest = "T"%char :: r)
    /\ snippet
       = match body with
         | JStr (c :: b) =>
             map (fun x => if Ascii.eqb x nl then " "%char else x)
                 (firstn 200 (c :: b))
         | _ => lit "No description"
         end
    /\ len snippet <= 200 /\ noLineBreak snippet = true.
Proof.
  intros Hn _ Hst Hc Ht Hb Hbody.
  destruct (split_head_rest created "T"%char) as (rest & Hrest & Hsep).
  exists (nth 0 (split created "T"%char) []), rest.
  unfold issueLine. rewrite Hn, Hst, Hc, Ht, Hb. cbn [bindE toString callSplit].
  assert (Hnone : len (lit "No description") <= 200
                  /\ noLineBreak (lit "No description") = true)
    by (split; [vm_compute; discriminate | reflexivity]).
  destruct Hbody as [->|(b & -> & _)].
  - exists (lit "No description"). cbn [truthy bindE].
    repeat split; auto using split_head_no_separator; apply Hnone.
  - destruct b as [|c b].
    + exists (lit "No description"). cbn [truthy nonEmpty bindE].
      repeat split; auto using split_head_no_separator; apply Hnone.
    + exists (replaceAll (substring (c :: b) 0 200) nl (lit " ")).
      cbn [truthy nonEmpty bindE callSubstring].
      repeat split; auto using split_head_no_separator, noLineBreak_replaceAll.
      * change (lit " ") with [" "%char].
        rewrite replaceAll_char_map, substring_firstn by lia. reflexivity.
      * change (lit " ") with [" "%char]. rewrite len_replaceAll_char.
        apply len_substring_le. lia.
Qed.

Lemma issueLine_wellformed_witness :
  exists day rest snippet,
    issueLine
      (JObj [("number"%string, JNum 12);
             ("state"%string, JStr (lit "closed"));
             ("created_at"%string, JStr (lit "2023-11-30T08:00:00Z"));
             ("title"%string, JStr (lit "Typo"));
             ("body"%string, JStr (lit "one" ++ [nl] ++ lit "two"))])
    = Ok (JStr (lit "- #" ++ decimal 12 ++ lit " [" ++ lit "closed"
                ++ lit "] (Created: " ++ day ++ lit ") " ++ lit "Typo"
                ++ [nl] ++ lit "  Snippet: " ++ snippet ++ lit "..."))
    /\ lit "2023-11-30T08:00:00Z" = day ++ rest /\ ~ In "T"%char day
    /\ (rest = [] \/ exists r, rest = "T"%char :: r)
    /\ snippet = lit "one two"
    /\ len snippet <= 200 /\ noLineBreak snippet = true.
Proof.
  apply (issueLine_wellformed
           (JObj [("number"%string, JNum 12);
                  ("state"%string, JStr (lit "closed"));
                  ("created_at"%string, JStr (lit "2023-11-30T08:00:00Z"));
                  ("title"%string, JStr (lit "Typo"));
                  ("body"%string, JStr (lit "one" ++ [nl] ++ lit "two"))])
           (JStr (lit "one" ++ [nl] ++ lit "two")) 12
           (lit "closed") (lit "2023-11-30T08:00:00Z") (lit "Typo"));
    try reflexivity.
  - lia.
  - right. eexists. split; [reflexivity | repeat constructor].
Defined.

(** ** The two sides of the aggregation *)

Lemma aggregate_issue_side (axios_get : jsstring -> Settled) (r : RepoRef) :
  existingIssuesSummary (fst (aggregate axios_get r))
  = match match axios_get (issuesUrl r) with
          | fulfilled value => issuesSummary value
          | rejected reason => issuesError reason
          end with
    | Ok v => v
    | Throw _ => JStr couldNotFetchIssues
    end.
Proof.
  unfold aggregate, tryCatch, aggregate_try, seq.
  set (st0 := mkLocals (JStr couldNotFetchIssues) (JStr couldNotFetchFiles)).
  assert (Hstep : issuesStep (axios_get (issuesUrl r)) st0
                  = assign_existingIssuesSummary
                      match axios_get (issuesUrl r) with
                      | fulfilled value => issuesSummary value
                      | rejected reason => issuesError reason
                      end st0)
    by (unfold issuesStep; now destruct (axios_get (issuesUrl r))).
  rewrite Hstep. unfold assign_existingIssuesSummary.
  destruct (match axios_get (issuesUrl r) with
            | fulfilled value => issuesSummary value
            | rejected reason => issuesError reason
            end) as [v|e].
  - set (st1 := mkLocals v (projectContext st0)).
    destruct (treeStep_outcome axios_get r st1) as [(t & -> & _)|(-> & _)];
      reflexivity.
  - unfold evaluate. destruct (getProp e "message"); reflexivity.
Qed.

(** X17.  The issue summary does not depend on the tree side: two runs in
    which the issue request settles the same way leave the same
    [existingIssuesSummary], whatever the two tree requests do. *)
Theorem issues_summary_ignores_tree (net net' : jsstring -> Settled)
    (r : RepoRef) :
  net (issuesUrl r) = net' (issuesUrl r) ->
  existingIssuesSummary (fst (aggregate net r))
  = existingIssuesSummary (fst (aggregate net' r)).
Proof. intros H. rewrite !aggregate_issue_side. now rewrite H. Qed.

Lemma issues_summary_ignores_tree_witness :
  existingIssuesSummary (fst (aggregate (sampleNetwork true) sampleRepo))
  = existingIssuesSummary (fst (aggregate issuesOnlyNetwork sampleRepo)).
Proof.
  apply (issues_summary_ignores_tree (sampleNetwork true) issuesOnlyNetwork
           sampleRepo).
  reflexivity.
Defined.

(** ** The cleaned answer *)

Lemma removeAllFrom_skip (p s : jsstring) (k : nat) :
  removeAllFrom p s k = removeAllFrom p (skipn k s) 0.
Proof.
  revert s. induction k as [|k IH]; intros s; [reflexivity|].
  destruct s as [|c s]; [reflexivity|]. simpl. apply IH.
Qed.

Lemma removeAll_fence_step (s : jsstring) :
  removeAll s fence
  = match s with
    | [] => []
    | c :: s' =>
        if startsWith s fence then removeAll (skipn 3 s) fence
        else c :: removeAll s' fence
    end.
Proof.
  unfold removeAll. destruct s as [|c s']; [reflexivity|].
  cbn [removeAllFrom]. destruct (startsWith (c :: s') fence); [|reflexivity].
  rewrite removeAllFrom_skip. reflexivity.
Qed.

Lemma startsWith_fence_ticks (s : jsstring) :
  startsWith s fence = true <-> (3 <= leadingTicks s)%nat.
Proof.
  unfold fence. destruct s as [|a [|b [|c s]]]; simpl;
    repeat match goal with
           | |- context [Ascii.eqb ?x "`"%char] =>
               destruct (Ascii.eqb x "`"%char)
           end; simpl; split; intros; try discriminate; try lia; reflexivity.
Qed.

Lemma leadingTicks_skip3 (s : jsstring) :
  startsWith s fence = true ->
  leadingTicks s = (3 + leadingTicks (skipn 3 s))%nat
  /\ (List.length (skipn 3 s) < List.length s)%nat.
Proof.
  unfold fence. destruct s as [|a [|b [|c s]]]; simpl; try discriminate;
    repeat match goal with
           | |- context [Ascii.eqb ?x "`"%char] =>
               destruct (Ascii.eqb x "`"%char)
           end; simpl; intros; try discriminate; split; lia.
Qed.

(** After the removal fewer than three backticks stand at the start, and
    no more than before. *)
Lemma leadingTicks_removeAll (n : nat) (s : jsstring) :
  (List.length s <= n)%nat ->
  (leadingTicks (removeAll s fence) <= 2)%nat
  /\ (leadingTicks (removeAll s fence) <= leadingTicks s)%nat.
Proof.
  revert s. induction n as [|n IH]; intros s Hlen.
  - destruct s; [simpl; lia | simpl in Hlen; lia].
  - rewrite removeAll_fence_step. destruct s as [|c s']; [simpl; lia|].
    destruct (startsWith (c :: s') fence) eqn:E.
    + destruct (leadingTicks_skip3 _ E) as (Hticks & Hshort).
      destruct (IH (skipn 3 (c :: s')) ltac:(lia)) as (H2 & Hle). lia.
    + assert (Hnot : ~ (3 <= leadingTicks (c :: s'))%nat)
        by (rewrite <- startsWith_fence_ticks; congruence).
      simpl in Hlen. destruct (IH s' ltac:(lia)) as (H2 & Hle).
      simpl in *. destruct (Ascii.eqb c "`"%char); lia.
Qed.

Lemma removeAll_no_fence (n : nat) (s : jsstring) :
  (List.length s <= n)%nat -> includes (removeAll s fence) fence = false.
Proof.
  revert s. induction n as [|n IH]; intros s Hlen.
  - destruct s; [reflexivity | simpl in Hlen; lia].
  - assert (Hstart : startsWith (removeAll s fence) fence = false).
    { destruct (startsWith (removeAll s fence) fence) eqn:E; [|reflexivity].
      apply startsWith_fence_ticks in E.
      destruct (leadingTicks_removeAll (List.length s) s (le_n _)). lia. }
    rewrite removeAll_fence_step in *. destruct s as [|c s']; [reflexivity|].
    destruct (startsWith (c :: s') fence) eqn:E.
    + destruct (leadingTicks_skip3 _ E) as (_ & Hshort). apply IH. lia.
    + cbn [includes]. rewrite Hstart. simpl in Hlen. apply IH. lia.
Qed.

Lemma includes_app_l (a b p : jsstring) :
  includes a p = true -> includes (a ++ b) p = true.
Proof.
  assert (Hstart : forall a, startsWith a p = true -> startsWith (a ++ b) p = true).
  { clear a. induction p as [|c p IHp]; intros a H; [reflexivity|].
    destruct a as [|x a]; [discriminate|]. simpl in *.
    apply andb_true_iff in H as [Hx Ha]. rewrite Hx. simpl. now apply IHp. }
  induction a as [|x a IH]; intros H.
  - simpl in H. rewrite orb_false_r in H.
    destruct p; [|discriminate]. destruct b; reflexivity.
  - cbn [includes] in H. apply orb_true_iff in H as [H|H].
    + apply Hstart in H. cbn [app] in *. cbn [includes]. now rewrite H.
    + cbn [app includes]. rewrite (IH H). apply orb_true_r.
Qed.

Lemma includes_app_r (a b p : jsstring) :
  includes b p = true -> includes (a ++ b) p = true.
Proof.
  intros H. induction a as [|x a IH]; [exact H|].
  simpl. rewrite IH. apply orb_true_r.
Qed.

Lemma trimStart_suffix (isSpace : ascii -> bool) (s : jsstring) :
  exists w, s = w ++ trimStart isSpace s.
Proof.
  induction s as [|c s (w & Hw)]; [exists []; reflexivity|].
  simpl. destruct (isSpace c).
  - exists (c :: w). simpl. now rewrite <- Hw.
  - exists []. reflexivity.
Qed.

Lemma includes_trim (isSpace : ascii -> bool) (s p : jsstring) :
  includes (trim isSpace s) p = true -> includes s p = true.
Proof.
  intros H. destruct (trimStart_suffix isSpace s) as (w & Hw).
  rewrite Hw. apply includes_app_r.
  unfold trim, trimEnd in H.
  destruct (trimStart_suffix isSpace (rev (trimStart isSpace s))) as (v & Hv).
  apply (f_equal (@rev ascii)) in Hv. rewrite rev_involutive, rev_app_distr in Hv.
  rewrite Hv. now apply includes_app_l.
Qed.

(** X18.  However many code fences the answer of the model contains, and
    however its backticks are grouped, the cleaned text that is handed to
    [JSON.parse] contains no run of three backticks. *)
Theorem cleanedResponse_no_fence (isSpace : ascii -> bool)
    (responseText : jsstring) :
  includes (cleanedResponse isSpace responseText) fence = false.
Proof.
  unfold cleanedResponse.
  destruct (includes (trim isSpace _) fence) eqn:E; [|reflexivity].
  apply includes_trim in E.
  now rewrite (removeAll_no_fence _ _ (le_n _)) in E.
Qed.

(** ** More on the section planner *)

Lemma sectionEntries_cases (prLink settings : jsval) :
  let s := spread2 defaults settings in
  let on k := truthy (field s k) in
  (on "includeLinkedIssues"%string = true
   /\ truthy prLink = true
   /\ (exists e, toString prLink = Throw e /\ sectionEntries prLink settings = Throw e))
  \/ (exists inner,
         sectionEntries prLink settings
         = Ok (entriesFor (on "includeSummary"%string)
                          (on "includeLinkedIssues"%string)
                          (on "includeChecklist"%string)
                          (on "includeBreakingChanges"%string)
                          (on "includeScreenshots"%string) inner)
         /\ (on "includeLinkedIssues"%string = false
             \/ relatedInner prLink = Ok inner)).
Proof.
  cbv zeta.
  destruct (truthy (field (spread2 defaults settings) "includeLinkedIssues"))
    eqn:Elinked.
  - destruct (relatedInner prLink) as [inner|e] eqn:Einner.
    + right. exists inner. split; [|now right].
      rewrite (sectionEntries_entriesFor _ settings _ Einner). cbv zeta.
      now rewrite Elinked.
    + left. unfold relatedInner in Einner.
      destruct (truthy prLink) eqn:Et; [|discriminate].
      destruct (toString prLink) as [s|e'] eqn:Es; [discriminate|].
      inversion Einner; subst e'. repeat split. exists e. split; [reflexivity|].
      unfold sectionEntries, relatedInner. rewrite Elinked, Et, Es. reflexivity.
  - right. exists []. split; [|now left].
    pose proof (sectionEntries_unlinked prLink settings) as H. cbv zeta in H.
    now rewrite (H Elinked).
Qed.

Lemma regroup_entries {A} (d t te a : A) (x1 x2 x3 x4 x5 : list A) :
  [d] ++ x1 ++ x2 ++ [t] ++ x3 ++ x4 ++ [te] ++ x5 ++ [a]
  = d :: (x1 ++ x2) ++ t :: (x3 ++ x4) ++ te :: x5 ++ [a].
Proof. simpl. now rewrite <- !app_assoc. Qed.

(** X19.  Whatever the settings are (an object, [undefined], or any other
    value), a list that [buildSectionsList] builds starts with Description,
    ends with Additional Notes, and has Type of Change and Testing Details
    between them in this order: no toggle removes a core section. *)
Theorem core_sections_always (prLink settings : jsval)
    (entries : list jsstring) :
  sectionEntries prLink settings = Ok entries ->
  exists a b c,
    entries
    = entryDescription :: a ++ entryTypeOfChange :: b
      ++ entryTestingDetails :: c ++ [entryAdditionalNotes].
Proof.
  intros H.
  destruct (sectionEntries_cases prLink settings)
    as [(_ & _ & e & _ & Hthrow)|(inner & Hok & _)]; [congruence|].
  cbv zeta in Hok. rewrite Hok in H. injection H as <-. unfold entriesFor.
  eexists _, _, _. apply regroup_entries.
Qed.

Lemma core_sections_always_witness :
  exists a b c,
    [entryDescription; entryTypeOfChange; entryTestingDetails;
     entryAdditionalNotes]
    = entryDescription :: a ++ entryTypeOfChange :: b
      ++ entryTestingDetails :: c ++ [entryAdditionalNotes].
Proof.
  apply (core_sections_always JUndefined
           (getStructureSettings (fun _ => Some false))).
  reflexivity.
Defined.

(** X20.  [buildSectionsList] throws in one situation only: the linked
    issues section is on and [prLink] is a truthy value that cannot be
    turned into a string; it then throws what that conversion throws.  In
    particular it returns for every [prLink] that is a string, a number, a
    boolean, [null] or [undefined]. *)
Theorem buildSectionsList_throws (prLink settings e : jsval) :
  buildSectionsList prLink settings = Throw e
  <-> truthy (field (spread2 defaults settings) "includeLinkedIssues") = true
      /\ truthy prLink = true /\ toString prLink = Throw e.
Proof.
  unfold buildSectionsList. split.
  - destruct (sectionEntries_cases prLink settings)
      as [(Hon & Ht & e' & Hs & Hthrow)|(inner & Hok & _)]; cbv zeta in *.
    + rewrite Hthrow. simpl. intros H. inversion H; subst e'. auto.
    + rewrite Hok. discriminate.
  - intros (Hon & Ht & Hs).
    destruct (sectionEntries_cases prLink settings)
      as [(_ & _ & e' & Hs' & Hthrow)|(inner & _ & [Hoff|Hinner])];
      cbv zeta in *.
    + rewrite Hthrow. simpl. congruence.
    + congruence.
    + unfold relatedInner in Hinner. rewrite Ht, Hs in Hinner. discriminate.
Qed.

Lemma getField_indexed {A} (f : A -> jsval) (l : list A) (i : nat)
    (k : string) :
  isToggle k -> getField (indexed f i l) k = None.
Proof.
  intros Hk. revert i. induction l as [|x l IH]; intros i; [reflexivity|].
  cbn [indexed getField]. rewrite IH.
  assert (Hneq : String.eqb k (indexKey i) = false).
  { unfold indexKey. unfold isToggle in Hk. simpl in Hk.
    destruct (Nat.to_uint i);
      repeat destruct Hk as [<-|Hk]; try contradiction; reflexivity. }
  now rewrite Hneq.
Qed.

(** X21.  Settings that are not an object leave every default in place:
    for [undefined], [null], a boolean, a number, a string or an array the
    list has all nine sections. *)
Theorem non_object_settings_all_sections (prLink settings : jsval)
    (inner : jsstring) :
  (forall props, settings <> JObj props) ->
  relatedInner prLink = Ok inner ->
  sectionEntries prLink settings
  = Ok [entryDescription; entrySummary; entryRelated inner;
        entryTypeOfChange; entryChecklist; entryBreakingChanges;
        entryTestingDetails; entryScreenshots; entryAdditionalNotes].
Proof.
  intros Hnot Hinner.
  assert (Hfield : forall k, isToggle k ->
            field (spread2 defaults settings) k = JBool true).
  { intros k Hk. unfold field, spread2.
    rewrite getField_copyDataProperties.
    assert (Hnone : getField (ownProps settings) k = None).
    { destruct settings; try reflexivity.
      - now apply getField_indexed.
      - now apply getField_indexed.
      - exfalso. now apply (Hnot props). }
    rewrite Hnone. unfold isToggle in Hk. simpl in Hk.
    repeat destruct Hk as [<-|Hk]; try reflexivity. contradiction. }
  rewrite (sectionEntries_entriesFor _ _ _ Hinner). cbv zeta.
  now rewrite !Hfield by toggle_key.
Qed.

Lemma non_object_settings_all_sections_witness :
  sectionEntries (JStr (lit "#42")) (JArr [JBool false])
  = Ok [entryDescription; entrySummary; entryRelated (lit "Relates to #42");
        entryTypeOfChange; entryChecklist; entryBreakingChanges;
        entryTestingDetails; entryScreenshots; entryAdditionalNotes].
Proof.
  apply (non_object_settings_all_sections (JStr (lit "#42")) (JArr [JBool false])).
  - intros props H. discriminate H.
  - reflexivity.
Defined.
